(** * goodreads_formatter.py: author aggregation and ranked views

    A shallow embedding of [cloudflare-workers/goodreads_formatter.py]
    and the properties of its name normalisation, of the per-author
    aggregation and of the three ranked output views.

    Python values are modelled as follows.
    - [str] is a sequence of Unicode code points ([seq N]).
    - A value that may be [None] is a [pyval].
    - A [dict] is an association list in insertion order, without
      repeated keys; Python dictionaries keep insertion order, and
      [sorted] is stable, so the order is observable in the views.
    - An uncaught exception is the [Raise] outcome of a [result]. *)

Set Warnings "-notation-overridden,-rewrite-rw,-redundant-canonical-projection".
From Stdlib Require Import NArith String Ascii Lia.
From HB Require Import structures.
From mathcomp Require Import ssreflect ssrfun ssrbool eqtype ssrnat seq path.

Set Implicit Arguments.
Unset Strict Implicit.
Unset Printing Implicit Defensive.

(** ** Python strings *)

Definition codepoint := N.
Definition pystr := seq codepoint.

HB.instance Definition _ := hasDecEq.Build string String.eqb_spec.

(** An ASCII literal as a Python string. *)
Definition py (s : string) : pystr :=
  [seq N_of_ascii a | a <- list_ascii_of_string s].

Definition dquote : codepoint := 0x22%num.
Definition equals_sign : codepoint := 0x3D%num.
Definition comma : codepoint := 0x2C%num.
Definition newline : codepoint := 0x0A%num.

(** The characters [str.strip()] removes when called without argument:
    CPython's [Py_UNICODE_ISSPACE]. *)
Definition Py_UNICODE_ISSPACE (c : codepoint) : bool :=
  (c \in [:: 0x09; 0x0A; 0x0B; 0x0C; 0x0D; 0x1C; 0x1D; 0x1E; 0x1F; 0x20;
             0x85; 0xA0; 0x1680; 0x2028; 0x2029; 0x202F; 0x205F; 0x3000]%num)
  || (N.leb 0x2000 c && N.leb c 0x200A).

Fixpoint lstrip_by (p : pred codepoint) (s : pystr) : pystr :=
  if s is c :: s' then (if p c then lstrip_by p s' else s) else [::].

Definition rstrip_by (p : pred codepoint) (s : pystr) : pystr :=
  rev (lstrip_by p (rev s)).

(** [s.strip(...)]: drop the characters of the set from the left end,
    then from the right end. *)
Definition strip_by (p : pred codepoint) (s : pystr) : pystr :=
  rstrip_by p (lstrip_by p s).

(** [s.strip()] *)
Definition str_strip (s : pystr) : pystr := strip_by Py_UNICODE_ISSPACE s.

(** [s.strip(chars)] *)
Definition str_strip_chars (chars : pystr) (s : pystr) : pystr :=
  strip_by (fun c => c \in chars) s.

(** [s.split(sep)] for a one-character separator. *)
Fixpoint str_split (sep : codepoint) (s : pystr) : seq pystr :=
  if s is c :: s' then
    if c == sep then [::] :: str_split sep s'
    else if str_split sep s' is w :: ws then (c :: w) :: ws
         else [:: [:: c]]
  else [:: [::]].

(** ** Python values that may be None *)

Inductive pyval := PyNone | PyStr (s : pystr).

Definition pyval_to_option (v : pyval) : option pystr :=
  if v is PyStr s then Some s else None.
Definition option_to_pyval (o : option pystr) : pyval :=
  if o is Some s then PyStr s else PyNone.
Definition pyval_optionK : cancel pyval_to_option option_to_pyval :=
  fun v => match v with PyNone => erefl | PyStr _ => erefl end.
HB.instance Definition _ := Equality.copy pyval (can_type pyval_optionK).

(** Truth value of [None] and of a [str]. *)
Definition truthy (v : pyval) : bool :=
  if v is PyStr s then s != [::] else false.

(** ** The regular expressions of [skip_patterns]

    The five patterns use only the anchors and literal characters. *)

Inductive re_item := ReBol | ReEol | ReLit (c : codepoint).
Definition regex := seq re_item.

(** The simple lower-case mapping of the Unicode database, on the code
    points it sends to an ASCII letter: the ASCII capitals, U+0130 and
    the Kelvin sign U+212A.  All other code points are left in place:
    none of them has an ASCII letter, dotless i or long s as its lower
    case, and the patterns have no other characters to compare with. *)
Definition unicode_tolower (c : codepoint) : codepoint :=
  if N.leb 0x41 c && N.leb c 0x5A then (c + 0x20)%num
  else if c == 0x130%num then 0x69%num
  else if c == 0x212A%num then 0x6B%num
  else c.

(** The entries of sre's table of extra case equivalences that concern
    ASCII letters: dotless i for [i], long s for [s]. *)
Definition ignorecase_fixes (lo : codepoint) : seq codepoint :=
  if lo == 0x69%num then [:: 0x131%num]
  else if lo == 0x73%num then [:: 0x17F%num]
  else [::].

(** A literal of the pattern against a character of the subject under
    [re.IGNORECASE] on [str]: the subject character is lower-cased and
    compared with the lower-cased literal and its extra equivalents. *)
Definition literal_ignorecase (p x : codepoint) : bool :=
  let lo := unicode_tolower p in
  unicode_tolower x \in lo :: ignorecase_fixes lo.

(** Matching at a position of the subject: [pos] characters have been
    consumed and [rest] remains.  Without [re.MULTILINE], [^] matches at
    the start of the subject only, and [$] at its end or just before a
    newline that ends it. *)
Fixpoint re_match_at (pat : regex) (pos : nat) (rest : pystr) : bool :=
  match pat with
  | [::] => true
  | ReBol :: pat' => (pos == 0) && re_match_at pat' pos rest
  | ReEol :: pat' =>
      ((rest == [::]) || (rest == [:: newline])) && re_match_at pat' pos rest
  | ReLit p :: pat' =>
      if rest is x :: rest' then
        literal_ignorecase p x && re_match_at pat' pos.+1 rest'
      else false
  end.

(** [re.match(pat, s, re.IGNORECASE)] as a truth value. *)
Definition re_match_ignorecase (pat : regex) (s : pystr) : bool :=
  re_match_at pat 0 s.

(** [r'^word$'] *)
Definition anchored (word : string) : regex :=
  ReBol :: [seq ReLit c | c <- py word] ++ [:: ReEol].

(** ** clean_author_name *)

Definition skip_words : seq string :=
  [:: "various"; "unknown"; "anonymous"; "editor"; "translator"]%string.

Definition skip_patterns : seq regex := [seq anchored w | w <- skip_words].

Definition clean_author_name (author_name : pyval) : pyval :=
  if ~~ truthy author_name then PyNone
  else if author_name is PyStr s0 then
    let s := str_strip (str_strip_chars [:: dquote] (str_strip s0)) in
    if s == [::] then PyNone
    else if has (fun pattern => re_match_ignorecase pattern s) skip_patterns
         then PyNone
    else PyStr s
  else PyNone.

(** ** Exceptions *)

Inductive exn := AttributeError | UnboundLocalError.

Inductive result (A : Type) := Ok (a : A) | Raise (e : exn).
Arguments Ok {A} a.
Arguments Raise {A} e.

Definition bind {A B : Type} (c : result A) (k : A -> result B) : result B :=
  match c with Ok a => k a | Raise e => Raise e end.

Notation "x <-- c ;; k" := (bind c (fun x => k))
  (at level 200, c at level 100, k at level 200, right associativity).

(** A [for] loop whose body may raise. *)
Fixpoint for_each {S X : Type} (body : S -> X -> result S) (s : S) (xs : seq X)
  : result S :=
  if xs is x :: xs' then (s' <-- body s x ;; for_each body s' xs') else Ok s.

(** [v.strip()]: [None] has no such method. *)
Definition method_strip (v : pyval) : result pystr :=
  if v is PyStr s then Ok (str_strip s) else Raise AttributeError.

(** ** Rows of the export

    A row is the [dict] that [csv.DictReader] yields: column name to
    field.  A row shorter than the header has [None] for the columns it
    lacks. *)

Definition Row := seq (pystr * pyval).

(** [row.get(key, default)] *)
Fixpoint row_get (row : Row) (key : string) (default : pyval) : pyval :=
  if row is (k, v) :: row' then
    if k == py key then v else row_get row' key default
  else default.

(** ** The aggregate *)

Record BookReference := mkBookReference {
  title : pystr;
  isbn : pystr;
  rating : pyval;
  shelf : pyval;
  role : option pystr   (* the key is absent for the primary author *)
}.

Record AuthorEntry := mkAuthorEntry {
  books : seq BookReference;
  total_books : nat
}.

Definition book_to_tuple (b : BookReference) :=
  (title b, isbn b, rating b, shelf b, role b).
Definition tuple_to_book (t : pystr * pystr * pyval * pyval * option pystr) :=
  let: (a, b, c, d, e) := t in mkBookReference a b c d e.
Definition book_tupleK : cancel book_to_tuple tuple_to_book :=
  fun b => match b with mkBookReference _ _ _ _ _ => erefl end.
HB.instance Definition _ := Equality.copy BookReference (can_type book_tupleK).

Definition entry_to_pair (e : AuthorEntry) := (books e, total_books e).
Definition pair_to_entry (p : seq BookReference * nat) := mkAuthorEntry p.1 p.2.
Definition entry_pairK : cancel entry_to_pair pair_to_entry :=
  fun e => match e with mkAuthorEntry _ _ => erefl end.
HB.instance Definition _ := Equality.copy AuthorEntry (can_type entry_pairK).

Definition Aggregate := seq (pystr * AuthorEntry).

Definition keys (d : Aggregate) : seq pystr := [seq x.1 | x <- d].

Fixpoint dict_get (d : Aggregate) (k : pystr) : option AuthorEntry :=
  if d is (k', e) :: d' then (if k' == k then Some e else dict_get d' k)
  else None.

(** [d[k] = e]: an existing key keeps its place, a new one goes last. *)
Fixpoint dict_set (d : Aggregate) (k : pystr) (e : AuthorEntry) : Aggregate :=
  if d is (k', e') :: d' then
    if k' == k then (k', e) :: d' else (k', e') :: dict_set d' k e
  else [:: (k, e)].

(** [lambda: {"books": [], "total_books": 0}] *)
Definition default_factory : AuthorEntry :=
  {| books := [::]; total_books := 0 |}.

(** [authors[key]] on the [defaultdict]: a missing key is inserted with
    the value of the factory before the entry is handed out. *)
Definition dd_getitem (authors : Aggregate) (key : pystr)
  : Aggregate * AuthorEntry :=
  if dict_get authors key is Some e then (authors, e)
  else (dict_set authors key default_factory, default_factory).

(** [authors[key]["books"].append(book)] *)
Definition append_book (authors : Aggregate) (key : pystr) (book : BookReference)
  : Aggregate :=
  let: (authors', e) := dd_getitem authors key in
  dict_set authors' key
    {| books := rcons (books e) book; total_books := total_books e |}.

(** [authors[key]["total_books"] += 1] *)
Definition increment_total (authors : Aggregate) (key : pystr) : Aggregate :=
  let: (authors', e) := dd_getitem authors key in
  dict_set authors' key
    {| books := books e; total_books := total_books e + 1 |}.

(** ** extract_authors_from_goodreads *)

(** The dictionary literal appended for an attribution. *)
Definition book_dict (row : Row) (title : pystr) (role : option pystr)
  : result BookReference :=
  stripped <-- method_strip (row_get row "ISBN13" (PyStr [::])) ;;
  Ok {| title := title;
        isbn := str_strip_chars [:: equals_sign]
                  (str_strip_chars [:: dquote] stripped);
        rating := row_get row "My Rating" (PyStr (py "0"));
        shelf := row_get row "Exclusive Shelf" (PyStr (py "unknown"));
        role := role |}.

(** The two statements of an attribution, once the book is built. *)
Definition credit (authors : Aggregate) (name : pystr) (book : BookReference)
  : Aggregate :=
  increment_total (append_book authors name book) name.

(** One attribution: the two statements guarded by [if who:]. *)
Definition attribute (authors : Aggregate) (who : pyval) (row : Row)
    (title : pystr) (role : option pystr) : result Aggregate :=
  if who is PyStr name then
    if name != [::] then
      book <-- book_dict row title role ;;
      Ok (credit authors name book)
    else Ok authors
  else Ok authors.

(** The body of the loop over the rows. *)
Definition process_row (authors : Aggregate) (row : Row) : result Aggregate :=
  title <-- method_strip (row_get row "Title" (PyStr [::])) ;;
  let author := clean_author_name (row_get row "Author" (PyStr [::])) in
  additional_authors <--
    method_strip (row_get row "Additional Authors" (PyStr [::])) ;;
  authors <-- attribute authors author row title None ;;
  if additional_authors != [::] then
    let additional_list :=
      [seq clean_author_name (PyStr name)
      | name <- str_split comma additional_authors] in
    for_each
      (fun authors additional_author =>
         attribute authors additional_author row title
           (Some (py "additional_author")))
      authors additional_list
  else Ok authors.

(** The loop, started on the empty [defaultdict]. *)
Definition aggregate_rows (rows : seq Row) : result Aggregate :=
  for_each process_row [::] rows.

(** The function on the rows read from the file.  The report printed
    after the loop reads [row_num], which is unbound when there was no
    row. *)
Definition extract_authors_from_goodreads (rows : seq Row)
  : result Aggregate :=
  authors <-- aggregate_rows rows ;;
  if rows is [::] then Raise UnboundLocalError else Ok authors.

(** ** The output views *)

(** [key=lambda x: x[1]["total_books"], reverse=True]: descending, and
    stable, so that authors with equal counts stay in insertion order. *)
Definition by_total_books_desc : rel (pystr * AuthorEntry) :=
  fun x y => total_books y.2 <= total_books x.2.

Definition sorted_items (authors_data : Aggregate) : seq (pystr * AuthorEntry) :=
  sort by_total_books_desc authors_data.

Module Detailed.

Record metadata_t := mkMetadata {
  source : pystr;
  total_authors : nat;
  total_books : nat;
  export_date : pystr;
  format_version : pystr
}.

Record author_t := mkAuthor {
  name : pystr;
  book_count : nat;
  books : seq BookReference
}.

Record t := mk {
  metadata : metadata_t;
  authors : seq author_t
}.

End Detailed.

Definition author_to_tuple (a : Detailed.author_t) :=
  (Detailed.name a, Detailed.book_count a, Detailed.books a).
Definition tuple_to_author (x : pystr * nat * seq BookReference) :=
  let: (n, c, b) := x in Detailed.mkAuthor n c b.
Definition author_tupleK : cancel author_to_tuple tuple_to_author :=
  fun a => match a with Detailed.mkAuthor _ _ _ => erefl end.
HB.instance Definition _ :=
  Equality.copy Detailed.author_t (can_type author_tupleK).

Definition create_cache_warming_format (authors_data : Aggregate) : Detailed.t :=
  let sorted_authors := sorted_items authors_data in
  {| Detailed.metadata :=
       {| Detailed.source := py "goodreads_export";
          Detailed.total_authors := size sorted_authors;
          Detailed.total_books :=
            sumn [seq total_books x.2 | x <- sorted_authors];
          Detailed.export_date := py "2025-09-27";
          Detailed.format_version := py "1.0" |};
     Detailed.authors :=
       [seq {| Detailed.name := x.1;
               Detailed.book_count := total_books x.2;
               Detailed.books := take 10 (books x.2) |}
       | x <- sorted_authors] |}.

Definition create_simple_author_list (authors_data : Aggregate) : seq pystr :=
  [seq x.1 | x <- sorted_items authors_data].

(** The table [main] writes for the upload: a header and one row per
    author. *)
Inductive csv_cell := CellStr (s : pystr) | CellInt (n : nat).

Definition csv_header : seq csv_cell :=
  [:: CellStr (py "author"); CellStr (py "book_count")].

Definition csv_author_rows (authors_data : Aggregate) : seq (seq csv_cell) :=
  [seq [:: CellStr x.1; CellInt (total_books x.2)]
  | x <- sorted_items authors_data].

Record outputs := mkOutputs {
  detailed_json : Detailed.t;
  simple_json : seq pystr;
  cache_csv : seq (seq csv_cell)
}.

Definition main (rows : seq Row) : result outputs :=
  authors_data <-- extract_authors_from_goodreads rows ;;
  let cache_format := create_cache_warming_format authors_data in
  let author_names := create_simple_author_list authors_data in
  Ok {| detailed_json := cache_format;
        simple_json := author_names;
        cache_csv := csv_header :: csv_author_rows authors_data |}.

(** ** Notions used in the statements *)

Definition begins_with (c : codepoint) (s : pystr) : bool :=
  if s is x :: _ then x == c else false.

Definition ends_with (c : codepoint) (s : pystr) : bool :=
  begins_with c (rev s).

(** No character of the set at the left end, at the right end. *)
Definition head_free (p : pred codepoint) (s : pystr) : bool :=
  if s is x :: _ then ~~ p x else true.

Definition last_free (p : pred codepoint) (s : pystr) : bool :=
  head_free p (rev s).

(** The name after the three [strip] calls. *)
Definition cleaned (s : pystr) : pystr :=
  str_strip (str_strip_chars [:: dquote] (str_strip s)).

(** Equal to the word character by character up to case, as
    [re.IGNORECASE] compares characters. *)
Definition caseless_eq (s : pystr) (w : string) : bool :=
  all2 literal_ignorecase (py w) s.

(** The entry of an author, as a read that leaves the aggregate alone. *)
Definition entry_of (d : Aggregate) (a : pystr) : AuthorEntry :=
  odflt default_factory (dict_get d a).

Definition books_of (d : Aggregate) (a : pystr) : seq BookReference :=
  books (entry_of d a).

Definition total_of (d : Aggregate) (a : pystr) : nat :=
  total_books (entry_of d a).

(** [sum(data["total_books"] for _, data in ...)] over the aggregate. *)
Definition sum_total_books (d : Aggregate) : nat :=
  sumn [seq total_books x.2 | x <- d].

(** The valid author names a record names, in the order of attribution:
    the primary author, then the entries of the additional-authors field
    split at the commas, each normalised and kept when valid. *)
Definition attributed (who : pyval) : seq pystr :=
  if who is PyStr name then (if name != [::] then [:: name] else [::])
  else [::].

Definition stripped_field (row : Row) (key : string) : pystr :=
  if row_get row key (PyStr [::]) is PyStr s then str_strip s else [::].

Definition row_title (row : Row) : pystr := stripped_field row "Title".

Definition primary_names (row : Row) : seq pystr :=
  attributed (clean_author_name (row_get row "Author" (PyStr [::]))).

Definition additional_names (row : Row) : seq pystr :=
  flatten [seq attributed (clean_author_name (PyStr name))
          | name <- str_split comma (stripped_field row "Additional Authors")].

Definition row_names (row : Row) : seq pystr :=
  primary_names row ++ additional_names row.

(** A run of attributions. *)
Definition credit_all (d : Aggregate) (atts : seq (pystr * BookReference))
  : Aggregate :=
  foldl (fun d x => credit d x.1 x.2) d atts.

(** The number of (record, valid author) pairs of the input. *)
Definition attributions (rows : seq Row) : nat :=
  sumn [seq size (row_names row) | row <- rows].

(** Rows all of whose fields are strings: the rows of a file in which no
    line is shorter than the header. *)
Definition row_is_text (row : Row) : bool :=
  all (fun kv => kv.2 != PyNone) row.

(** The states of the aggregate that a run passes through, an attribution
    being one step: the empty [defaultdict], the aggregate after each
    attribution and after each row, and the aggregate returned. *)
Inductive visited : Aggregate -> Prop :=
| at_start : visited [::]
| after_attribution d who row t role d' :
    visited d -> attribute d who row t role = Ok d' -> visited d'
| after_row d row d' :
    visited d -> process_row d row = Ok d' -> visited d'
| at_return rows d :
    extract_authors_from_goodreads rows = Ok d -> visited d.

(** The counter of every entry is the length of its list of books. *)
Definition counts_agree (d : Aggregate) : bool :=
  all (fun x => total_books x.2 == size (books x.2)) d.

(** Every entry has a book and a positive counter. *)
Definition entry_has_book (e : AuthorEntry) : bool :=
  (0 < size (books e)) && (0 < total_books e).

Definition no_empty_entry (d : Aggregate) : bool :=
  all (fun x => entry_has_book x.2) d.

(** Both occur in the sequence, the first one earlier. *)
Definition appears_before (x y : pystr) (s : seq pystr) : bool :=
  [&& x \in s, y \in s & index x s < index y s].

Definition detailed_names (v : Detailed.t) : seq pystr :=
  [seq Detailed.name a | a <- Detailed.authors v].

(** The two columns of a row of the table. *)
Definition csv_author (r : seq csv_cell) : pystr :=
  if r is CellStr n :: _ then n else [::].

Definition csv_book_count (r : seq csv_cell) : nat :=
  if r is [:: _; CellInt n] then n else 0.

(** Sample input. *)
Definition text_row (t a add i : string) : Row :=
  [:: (py "Title", PyStr (py t)); (py "Author", PyStr (py a));
      (py "Additional Authors", PyStr (py add));
      (py "ISBN13", PyStr (py i)); (py "My Rating", PyStr (py "5"));
      (py "Exclusive Shelf", PyStr (py "read"))].

Definition sample_rows : seq Row :=
  [:: text_row "T1" "Jane Doe" "John Roe, Unknown" "123";
      text_row "T2" "Jane Doe" "" "456";
      text_row "T3" "John Roe" "Jane Doe" "789"].

Definition sample_aggregate : Aggregate :=
  if aggregate_rows sample_rows is Ok d then d else [::].

(** A record that names one author three times. *)
Definition repeated_author_row : Row :=
  text_row "T" "Jane Doe" "Jane Doe, Jane Doe" "1".

Definition repeated_author_aggregate : Aggregate :=
  if process_row [::] repeated_author_row is Ok d then d else [::].

(** Fifteen records of one author, with the titles A to O. *)
Definition fifteen_rows : seq Row :=
  [seq [:: (py "Title", PyStr [:: (0x41 + N.of_nat i)%num]);
           (py "Author", PyStr (py "Jane Doe"))]
  | i <- iota 0 15].

(** An ISBN column as the export writes it: an equals sign and the
    number between double quotes. *)
Definition excel_isbn : pystr :=
  [:: equals_sign; dquote] ++ py "9780439023481" ++ [:: dquote].

Definition excel_row : Row :=
  [:: (py "Title", PyStr (py "The Hunger Games"));
      (py "Author", PyStr (py "Suzanne Collins"));
      (py "ISBN13", PyStr excel_isbn)].

Definition fifteen_aggregate : Aggregate :=
  if aggregate_rows fifteen_rows is Ok d then d else [::].

(** Step 2 as the specification words it: one quote character at most
    is taken from each end. *)
Definition strip_one_layer (c : codepoint) (s : pystr) : pystr :=
  let s1 := if begins_with c s then behead s else s in
  if ends_with c s1 then rev (behead (rev s1)) else s1.

Definition cleaned_one_layer (s : pystr) : pystr :=
  str_strip (strip_one_layer dquote (str_strip s)).

(** Two layers of quotes, and quotes separated by a blank. *)
Definition quoted_twice : pystr :=
  [:: dquote; dquote] ++ py "Foo" ++ [:: dquote; dquote].

Definition quoted_apart : pystr :=
  [:: dquote; 0x20%num; dquote] ++ py "Foo" ++ [:: dquote; 0x20%num; dquote].

(** ** Notions used for the whole run *)

(** The dictionary literal of an attribution, the ISBN13 field being read
    as [stripped_field] reads it. *)
Definition book_of (row : Row) (t : pystr) (role : option pystr)
  : BookReference :=
  {| title := t;
     isbn := str_strip_chars [:: equals_sign]
               (str_strip_chars [:: dquote] (stripped_field row "ISBN13"));
     rating := row_get row "My Rating" (PyStr (py "0"));
     shelf := row_get row "Exclusive Shelf" (PyStr (py "unknown"));
     role := role |}.

(** The attributions of a record, in the order the loop makes them. *)
Definition row_attributions (row : Row) : seq (pystr * BookReference) :=
  [seq (n, book_of row (row_title row) None) | n <- primary_names row] ++
  [seq (n, book_of row (row_title row) (Some (py "additional_author")))
  | n <- additional_names row].

Definition all_attributions (rows : seq Row) : seq (pystr * BookReference) :=
  flatten [seq row_attributions row | row <- rows].

Definition all_names (rows : seq Row) : seq pystr :=
  flatten [seq row_names row | row <- rows].

(** The field of a column is [None]: the row is too short to have it. *)
Definition field_is_none (row : Row) (key : string) : bool :=
  row_get row key (PyStr [::]) == PyNone.

(** The rows on which the body of the loop raises. *)
Definition row_raises (row : Row) : bool :=
  [|| field_is_none row "Title",
      field_is_none row "Additional Authors" |
      field_is_none row "ISBN13" && (row_names row != [::])].

(** A sequence without its repetitions, each element at the place of its
    first occurrence ([undup] keeps the last one). *)
Definition first_seen (s : seq pystr) : seq pystr := rev (undup (rev s)).

(** The column is absent from the row. *)
Definition lacks_column (row : Row) (key : string) : bool :=
  py key \notin [seq kv.1 | kv <- row].

(** White space or a double quote: what the cleaning takes from the ends
    of a name. *)
Definition space_or_quote (c : codepoint) : bool :=
  Py_UNICODE_ISSPACE c || (c == dquote).

(** What the three [strip] calls on the ISBN13 field look for, and a value
    that has none of it at its ends. *)
Definition isbn_junk (c : codepoint) : bool :=
  [|| Py_UNICODE_ISSPACE c, c == dquote | c == equals_sign].

Definition bare (x : pystr) : bool :=
  [&& x != [::], head_free isbn_junk x & last_free isbn_junk x].

(** ** Case of letters, stated without the matcher *)

Definition is_ascii_lower (c : codepoint) : bool :=
  N.leb 0x61 c && N.leb c 0x7A.

(** The characters that stand for a lower-case ASCII letter when case is
    ignored as [re.IGNORECASE] ignores it on [str]: the letter, its
    capital, and four letters outside ASCII: U+0130 and U+0131 for [i],
    U+017F for [s], U+212A for [k]. *)
Definition case_variants (p : codepoint) : seq codepoint :=
  [:: p; (p - 0x20)%num] ++
  (if p == 0x69%num then [:: 0x130; 0x131]%num
   else if p == 0x73%num then [:: 0x17F%num]
   else if p == 0x6B%num then [:: 0x212A%num]
   else [::]).

(** As long as the word, with a variant of its letter at each place. *)
Definition matches_ignoring_case (s : pystr) (w : string) : bool :=
  all2 (fun p x => x \in case_variants p) (py w) s.

(** Case-insensitive equality read on its own: equal once the capitals
    are lower-cased. *)
Definition ascii_lower (c : codepoint) : codepoint :=
  if N.leb 0x41 c && N.leb c 0x5A then (c + 0x20)%num else c.

Definition equal_ignoring_case (s : pystr) (w : string) : bool :=
  [seq ascii_lower c | c <- s] == [seq ascii_lower c | c <- py w].

(** The word editor written with a dotless i. *)
Definition dotless_editor : pystr := py "ed" ++ [:: 0x131%num] ++ py "tor".

(** A record with commas in both author fields. *)
Definition comma_row : Row :=
  [:: (py "Title", PyStr (py "T")); (py "Author", PyStr (py "Doe, Jane"));
      (py "Additional Authors", PyStr (py "Roe, John"))].

Definition comma_aggregate : Aggregate :=
  if process_row [::] comma_row is Ok d then d else [::].

(** * Properties *)

(** ** Stripping *)

Section Strip.

Variable p : pred codepoint.

Lemma lstrip_byP s : exists2 a, s = a ++ lstrip_by p s & all p a.
Proof.
elim: s => [|c s [a sE ap]] /=; first by exists [::].
case pc: (p c); last by exists [::].
by exists (c :: a); rewrite /= ?pc // -sE.
Qed.

Lemma lstrip_by_free s : head_free p (lstrip_by p s).
Proof. by elim: s => [|c s IH] //=; case pc: (p c) => //=; rewrite pc. Qed.

Lemma lstrip_by_id s : head_free p s -> lstrip_by p s = s.
Proof. by case: s => [|c s] //= /negbTE ->. Qed.

Lemma rstrip_byP s : exists2 b, s = rstrip_by p s ++ b & all p b.
Proof.
have [a sE ap] := lstrip_byP (rev s).
exists (rev a); last by rewrite all_rev.
by rewrite /rstrip_by -rev_cat -sE revK.
Qed.

Lemma rstrip_by_free s : last_free p (rstrip_by p s).
Proof. by rewrite /last_free /rstrip_by revK lstrip_by_free. Qed.

Lemma rstrip_by_id s : last_free p s -> rstrip_by p s = s.
Proof. by rewrite /last_free /rstrip_by => /lstrip_by_id ->; rewrite revK. Qed.

Lemma head_free_prefix u b : head_free p (u ++ b) -> head_free p u.
Proof. by case: u. Qed.

Lemma strip_byP s :
  exists a b, [/\ s = a ++ strip_by p s ++ b, all p a, all p b,
                  head_free p (strip_by p s) & last_free p (strip_by p s)].
Proof.
have [a sE ap] := lstrip_byP s.
have [b tE bp] := rstrip_byP (lstrip_by p s).
exists a, b; split=> //; first by rewrite /strip_by -tE.
  by apply: (@head_free_prefix _ b); rewrite /strip_by -tE lstrip_by_free.
exact: rstrip_by_free.
Qed.

Lemma strip_by_id s : head_free p s -> last_free p s -> strip_by p s = s.
Proof. by rewrite /strip_by => /lstrip_by_id -> /rstrip_by_id. Qed.

Lemma strip_by_fix s : strip_by p s = s -> head_free p s /\ last_free p s.
Proof. by have [a [b [_ _ _ hf lf]]] := strip_byP s; move=> <-. Qed.

Lemma size_strip_by s : size (strip_by p s) <= size s.
Proof.
have [a [b [sE _ _ _ _]]] := strip_byP s.
by rewrite [in X in _ <= X]sE !size_cat addnCA leq_addr.
Qed.

Lemma strip_by_size_id s : size (strip_by p s) = size s -> strip_by p s = s.
Proof.
have [a [b [sE _ _ _ _]]] := strip_byP s.
rewrite {2}sE !size_cat addnCA -{1}[size (strip_by p s)]addn0 => /eqP.
rewrite eqn_add2l eq_sym addn_eq0 !size_eq0 => /andP [/eqP a0 /eqP b0].
by rewrite {2}sE a0 b0 cats0.
Qed.

End Strip.

Lemma head_free_dquote s :
  head_free (fun c => c \in [:: dquote]) s = ~~ begins_with dquote s.
Proof. by case: s => [|x s] //=; rewrite inE. Qed.

Lemma last_free_dquote s :
  last_free (fun c => c \in [:: dquote]) s = ~~ ends_with dquote s.
Proof. by rewrite /last_free head_free_dquote. Qed.

Lemma cleaned_free s :
  head_free Py_UNICODE_ISSPACE (cleaned s) /\
  last_free Py_UNICODE_ISSPACE (cleaned s).
Proof.
rewrite /cleaned /str_strip.
by have [a [b [_ _ _ hf lf]]] :=
  strip_byP Py_UNICODE_ISSPACE (str_strip_chars [:: dquote]
                                  (strip_by Py_UNICODE_ISSPACE s)).
Qed.

(** ** The skip patterns *)

Lemma re_match_literals w pos rest :
  re_match_at ([seq ReLit c | c <- w] ++ [:: ReEol]) pos rest =
  all2 literal_ignorecase w (take (size w) rest) &&
  ((drop (size w) rest == [::]) || (drop (size w) rest == [:: newline])).
Proof.
elim: w pos rest => [|c w IH] pos rest /=.
  by rewrite take0 drop0 andbT.
case: rest => [|x rest] //=.
by rewrite IH andbA.
Qed.

Lemma all2_size (T U : Type) (r : T -> U -> bool) s t :
  all2 r s t -> size s = size t.
Proof. by elim: s t => [|x s IH] [|y t] //= /andP [_ /IH ->]. Qed.

(** On a name without white space at its right end the anchored pattern
    matches exactly the names equal to the word up to case: the newline
    that [$] tolerates cannot occur. *)
Lemma anchored_match s w :
  last_free Py_UNICODE_ISSPACE s ->
  re_match_ignorecase (anchored w) s = caseless_eq s w.
Proof.
move=> lf; rewrite /re_match_ignorecase /anchored /caseless_eq /=.
rewrite re_match_literals.
apply/idP/idP.
  case/andP=> m /orP [] /eqP dE.
    by move: m; rewrite -{2}(cat_take_drop (size (py w)) s) dE cats0.
  move: lf; rewrite -(cat_take_drop (size (py w)) s) dE.
  by rewrite /last_free rev_cat.
move=> m; have sz := all2_size m.
by rewrite sz take_size drop_size m.
Qed.

Lemma skip_patterns_match s :
  last_free Py_UNICODE_ISSPACE s ->
  has (fun pattern => re_match_ignorecase pattern s) skip_patterns =
  has (caseless_eq s) skip_words.
Proof.
move=> lf; rewrite /skip_patterns has_map.
by apply: eq_has => w /=; rewrite anchored_match.
Qed.

Lemma clean_author_nameE s :
  clean_author_name (PyStr s) =
  if (cleaned s == [::]) || has (caseless_eq (cleaned s)) skip_words
  then PyNone else PyStr (cleaned s).
Proof.
have [_ lf] := cleaned_free s.
rewrite -[LHS]/(if ~~ (s != [::]) then PyNone
                else if cleaned s == [::] then PyNone
                else if has (fun pattern =>
                               re_match_ignorecase pattern (cleaned s))
                          skip_patterns
                     then PyNone else PyStr (cleaned s)).
rewrite skip_patterns_match //.
case: (altP (s =P [::])) => [->|_] /=; first by [].
by case: (cleaned s == [::]).
Qed.

(** ** Case of letters *)

Lemma unicode_tolowerP x :
  [\/ (0x41 <= x <= 0x5A)%num /\ unicode_tolower x = (x + 0x20)%num,
      x = 0x130%num /\ unicode_tolower x = 0x69%num,
      x = 0x212A%num /\ unicode_tolower x = 0x6B%num |
      [/\ ~ (0x41 <= x <= 0x5A)%num, x <> 0x130%num, x <> 0x212A%num &
          unicode_tolower x = x]].
Proof.
rewrite /unicode_tolower.
case: (N.leb_spec 0x41 x) => lo /=; last first.
  have n1 : x <> 0x130%num by lia.
  have n2 : x <> 0x212A%num by lia.
  case: eqP => // _; case: eqP => // _.
  by apply: Or44; split=> //; lia.
case: (N.leb_spec x 0x5A) => hi /=; first by apply: Or41; split=> //; lia.
case: eqP => [->|n1]; first by apply: Or42.
case: eqP => [->|n2]; first by apply: Or43.
by apply: Or44; split=> //; lia.
Qed.

Ltac eq_cases :=
  repeat (match goal with
          | |- context [@eq_op _ ?a ?b] => case: (@eqP _ a b) => ? /=
          end).

(** Against a lower-case letter of a pattern the matcher accepts exactly
    the variants of the letter. *)
Lemma literal_ignorecase_variants p x :
  is_ascii_lower p -> literal_ignorecase p x = (x \in case_variants p).
Proof.
case/andP=> /N.leb_le lo /N.leb_le hi.
have tp : unicode_tolower p = p by case: (unicode_tolowerP p) => [] []; lia.
rewrite /literal_ignorecase tp /ignorecase_fixes /case_variants.
have := unicode_tolowerP x; move: (unicode_tolower x) => t Ht.
eq_cases; rewrite !inE; eq_cases;
  first [by [] | exfalso; case: Ht => [] []; lia].
Qed.

Lemma all2_eq_in (r r' : codepoint -> codepoint -> bool)
    (P : pred codepoint) w s :
  (forall p x, P p -> r p x = r' p x) -> all P w ->
  all2 r w s = all2 r' w s.
Proof.
move=> rr; elim: w s => [|p w IH] [|x s] //= /andP [Pp Pw].
by rewrite rr // IH.
Qed.

Lemma skip_words_lower : all (fun w => all is_ascii_lower (py w)) skip_words.
Proof. by []. Qed.

Lemma caseless_eq_variants s w :
  w \in skip_words -> caseless_eq s w = matches_ignoring_case s w.
Proof.
move=> /(allP skip_words_lower) lw.
by apply: all2_eq_in lw => p x; apply: literal_ignorecase_variants.
Qed.

Lemma has_caseless_eq s :
  has (caseless_eq s) skip_words = has (matches_ignoring_case s) skip_words.
Proof. by apply: eq_in_has => w; apply: caseless_eq_variants. Qed.

(** The name with the dotless i is rejected, and no way of lower-casing
    that keeps the dotless i apart from [i] makes it equal to a skip
    word. *)
Lemma rejects_beyond_lower_casing (lower : codepoint -> codepoint) :
  lower 0x131%num != lower 0x69%num ->
  ~ (forall s,
       clean_author_name (PyStr s) = PyNone <->
       cleaned s = [::] \/
       exists2 w, w \in skip_words &
         [seq lower c | c <- cleaned s] == [seq lower c | c <- py w]).
Proof.
move=> ne /(_ dotless_editor) [+ _].
have -> : clean_author_name (PyStr dotless_editor) = PyNone by vm_compute.
have -> : cleaned dotless_editor = dotless_editor by vm_compute.
move/(_ (erefl _)); case=> [|[w]]; first by [].
rewrite !inE => /or4P [/eqP ->|/eqP ->|/eqP ->|/orP [/eqP ->|/eqP ->]] /eqP E;
  try by move/(congr1 size): E; rewrite !size_map.
have := congr1 (fun l => nth 0%num l 2) E.
by rewrite /dotless_editor /py /= => e; rewrite e eqxx in ne.
Qed.

(** ** Name normalisation *)

(** C4 (as amended): a name is rejected exactly when, once cleaned, it is
    empty or matches one of the five skip words as a whole with case
    ignored as [re.IGNORECASE] ignores it: as long as the word and, at
    each place, the letter of the word, its capital, or one of the four
    letters outside ASCII that stand for [i], [s] and [k].  A name that
    is kept is returned in its cleaned form.  The five placeholders of
    the specification are rejected and "Editor Smith" is kept. *)
Theorem skip_list_exact :
  (forall s,
     clean_author_name (PyStr s) = PyNone <->
     cleaned s = [::] \/
     exists2 w, w \in skip_words & matches_ignoring_case (cleaned s) w) /\
  (forall s,
     clean_author_name (PyStr s) = PyNone \/
     clean_author_name (PyStr s) = PyStr (cleaned s)) /\
  [/\ clean_author_name (PyStr (py "Various")) = PyNone,
      clean_author_name (PyStr (py "UNKNOWN")) = PyNone,
      clean_author_name (PyStr (py " Anonymous ")) = PyNone,
      clean_author_name (PyStr (py "Editor")) = PyNone &
      clean_author_name (PyStr (py "Translator")) = PyNone] /\
  clean_author_name (PyStr (py "Editor Smith")) = PyStr (py "Editor Smith").
Proof.
split; last split; last by split; [split|]; vm_compute.
  move=> s; rewrite clean_author_nameE has_caseless_eq.
  case: eqP => [->|ne]; first by split=> // _; left.
  rewrite orFb.
  case: (@hasP _ (matches_ignoring_case (cleaned s)) skip_words)
    => [[w win m]|no].
    by split=> // _; right; exists w.
  split=> //; case=> [/ne|[w win m]] //.
  by case: no; exists w.
by move=> s; rewrite clean_author_nameE; case: ifP => _; [left | right].
Qed.

(** C4 fails as stated: the word editor written with a dotless i is
    rejected, though it is not empty and not equal to a skip word once
    the capitals are lower-cased. *)
Lemma skip_list_rejects_dotless_i :
  ~ (forall s,
       clean_author_name (PyStr s) = PyNone <->
       cleaned s = [::] \/
       exists2 w, w \in skip_words & equal_ignoring_case (cleaned s) w).
Proof. exact: (@rejects_beyond_lower_casing ascii_lower). Qed.

(** Up to case is up to the letters that [re.IGNORECASE] identifies on
    [str]: a long s or a Kelvin sign in place of the ASCII letter is
    filtered too. *)
Lemma skip_list_unicode_case :
  clean_author_name (PyStr (py "variou" ++ [:: 0x17F%num])) = PyNone /\
  clean_author_name (PyStr (py "un" ++ [:: 0x212A%num] ++ py "nown")) = PyNone.
Proof. by split; vm_compute. Qed.

(** C5 (as amended): when a name [n] is returned, normalising [n] again
    returns [n] exactly when [n] neither begins nor ends with a double
    quote. *)
Theorem clean_author_name_again s n :
  clean_author_name (PyStr s) = PyStr n ->
  (clean_author_name (PyStr n) == PyStr n) =
  ~~ begins_with dquote n && ~~ ends_with dquote n.
Proof.
rewrite clean_author_nameE; case: ifP => // keep [nE].
have [hf lf] := cleaned_free s; rewrite nE in keep hf lf.
have cn : cleaned n = str_strip (str_strip_chars [:: dquote] n).
  by rewrite /cleaned [str_strip n]strip_by_id.
rewrite -head_free_dquote -last_free_dquote.
apply/idP/idP; last first.
  case/andP=> hq lq; rewrite clean_author_nameE cn.
  by rewrite [str_strip_chars _ n]strip_by_id // [str_strip n]strip_by_id ?keep.
rewrite clean_author_nameE; case: ifP => // _ /eqP [].
rewrite cn => fixn.
have szq : size (str_strip_chars [:: dquote] n) = size n.
  apply/eqP; rewrite eqn_leq size_strip_by /=.
  by rewrite -[in X in X <= _]fixn size_strip_by.
by have [-> ->] := strip_by_fix (strip_by_size_id szq).
Qed.

Lemma clean_author_name_again_witness :
  clean_author_name (PyStr (py " Jane Doe ")) = PyStr (py "Jane Doe") /\
  (clean_author_name (PyStr (py "Jane Doe")) == PyStr (py "Jane Doe")) =
  ~~ begins_with dquote (py "Jane Doe") && ~~ ends_with dquote (py "Jane Doe").
Proof.
have E : clean_author_name (PyStr (py " Jane Doe ")) = PyStr (py "Jane Doe").
  by vm_compute.
by split; [exact: E | exact: (clean_author_name_again E)].
Defined.

(** C5 fails as stated: a name cleaned once can still carry quotes, which
    a second pass removes. *)
Lemma clean_author_name_not_idempotent :
  ~ (forall s n, clean_author_name (PyStr s) = PyStr n ->
                 clean_author_name (PyStr n) = PyStr n).
Proof.
move/(_ quoted_apart ([:: dquote] ++ py "Foo" ++ [:: dquote])).
by move/(_ (erefl _)); vm_compute.
Qed.

(** C6 (as amended): after the first trim, every double quote at the left
    end and every double quote at the right end is removed, however many
    there are; what remains is trimmed again and is the name returned,
    when one is.  Two layers of quotes are removed together. *)
Theorem clean_author_name_strips_all_quotes :
  (forall s, exists a u b,
     [/\ str_strip s = a ++ u ++ b,
         all (pred1 dquote) a,
         all (pred1 dquote) b,
         ~~ begins_with dquote u && ~~ ends_with dquote u &
         clean_author_name (PyStr s) = PyNone \/
         clean_author_name (PyStr s) = PyStr (str_strip u)]) /\
  clean_author_name (PyStr quoted_twice) = PyStr (py "Foo").
Proof.
split; last by vm_compute.
move=> s.
have [a [b [tE ap bp hf lf]]] :=
  strip_byP (fun c => c \in [:: dquote]) (str_strip s).
exists a, (str_strip_chars [:: dquote] (str_strip s)), b; split=> //.
- by apply: sub_all ap => c; rewrite inE.
- by apply: sub_all bp => c; rewrite inE.
- by rewrite -head_free_dquote -last_free_dquote hf lf.
by rewrite clean_author_nameE -/(cleaned s); case: ifP => _; [left | right].
Qed.

(** C6 fails as stated: the name returned for a doubly quoted input is not
    the one that removing a single layer would leave. *)
Lemma clean_author_name_not_one_layer :
  ~ (forall s n, clean_author_name (PyStr s) = PyStr n ->
                 n = cleaned_one_layer s).
Proof.
by move/(_ quoted_twice (py "Foo") (erefl _)); vm_compute.
Qed.

(** ** The dictionary *)

Lemma dict_get_set d k e a :
  dict_get (dict_set d k e) a = if a == k then Some e else dict_get d a.
Proof.
elim: d => [|[k' e'] d IH] /=; first by rewrite eq_sym.
case: (altP (k' =P k)) => [->|ne] /=.
  by rewrite eq_sym; case: eqP.
rewrite IH; case: (altP (a =P k)) => [->|//].
by rewrite (negbTE ne).
Qed.

Lemma dict_set_set d k e1 e2 :
  dict_set (dict_set d k e1) k e2 = dict_set d k e2.
Proof.
elim: d => [|[k' e'] d IH] /=; first by rewrite eqxx.
by case: (altP (k' =P k)) => [->|ne] /=; rewrite ?eqxx ?(negbTE ne) ?IH.
Qed.

Lemma keys_set d k e :
  keys (dict_set d k e) = if k \in keys d then keys d else rcons (keys d) k.
Proof.
elim: d => [|[k' e'] d IH] //=.
rewrite inE [k == k']eq_sym; case: (altP (k' =P k)) => [->|ne] //=.
by rewrite -/(keys _) IH; case: ifP.
Qed.

Lemma uniq_keys_set d k e : uniq (keys d) -> uniq (keys (dict_set d k e)).
Proof.
by rewrite keys_set; case: ifPn => // kd ud; rewrite rcons_uniq kd.
Qed.

Lemma all_set (P : pred AuthorEntry) d k e :
  all (fun x => P x.2) d -> P e -> all (fun x => P x.2) (dict_set d k e).
Proof.
move=> + Pe; elim: d => [|[k' e'] d IH] /=; first by rewrite Pe.
by case/andP=> Pe' Pd; case: ifP => _ /=; rewrite ?Pe ?Pe' ?IH.
Qed.

Lemma sum_set d k e :
  sum_total_books (dict_set d k e) + total_of d k =
  sum_total_books d + total_books e.
Proof.
rewrite /sum_total_books /total_of /entry_of.
elim: d => [|[k' e'] d IH] /=; first by rewrite !addn0 add0n.
case: (altP (k' =P k)) => [->|ne] /=.
  by rewrite addnAC [X in _ = X]addnAC [total_books e + _]addnC.
by rewrite -addnA IH addnA.
Qed.

Lemma dict_get_mem d k e : dict_get d k = Some e -> (k, e) \in d.
Proof.
elim: d => [|[k' e'] d IH] //=.
case: eqP => [-> [->]|_ /IH]; first by rewrite inE eqxx.
by rewrite inE => ->; rewrite orbT.
Qed.

Lemma mem_dict_get d k e :
  uniq (keys d) -> (k, e) \in d -> dict_get d k = Some e.
Proof.
elim: d => [|[k' e'] d IH] //= /andP [nk ud].
rewrite inE => /orP [/eqP [-> ->]|kd]; first by rewrite eqxx.
case: eqP => [kk|_]; last exact: IH.
by move: nk; rewrite kk; case/negP; apply/mapP; exists (k, e).
Qed.

Lemma dict_get_keys d k :
  k \in keys d -> exists2 e, dict_get d k = Some e & (k, e) \in d.
Proof.
elim: d => [|[k' e'] d IH] //=; rewrite inE.
case: (altP (k' =P k)) => [->|ne] /=.
  by exists e' => //; rewrite inE eqxx.
rewrite eq_sym (negbTE ne) /= => /IH [e ge kd].
by exists e => //; rewrite inE kd orbT.
Qed.

(** An attribution sets the entry of the author to its former books and
    the new one, and its former count plus one; a new author goes last. *)
Lemma creditE d n b :
  credit d n b =
  dict_set d n {| books := rcons (books_of d n) b;
                  total_books := total_of d n + 1 |}.
Proof.
rewrite /credit /append_book /increment_total /dd_getitem.
rewrite /books_of /total_of /entry_of.
case: (dict_get d n) => [e|] /=; rewrite ?dict_set_set dict_get_set eqxx /=;
  by rewrite !dict_set_set.
Qed.

Lemma dict_get_credit d n b a :
  dict_get (credit d n b) a =
  if a == n then Some {| books := rcons (books_of d n) b;
                         total_books := total_of d n + 1 |}
  else dict_get d a.
Proof. by rewrite creditE dict_get_set. Qed.

Lemma sum_credit d n b :
  sum_total_books (credit d n b) = sum_total_books d + 1.
Proof.
apply/eqP; rewrite -(eqn_add2r (total_of d n)) creditE sum_set /=.
by rewrite -addnA [total_of d n + 1]addnC.
Qed.

(** The state between the two statements of an attribution: the book is
    appended and the counter lags by one. *)
Lemma append_bookE d n b :
  append_book d n b =
  dict_set d n {| books := rcons (books_of d n) b;
                  total_books := total_of d n |}.
Proof.
rewrite /append_book /dd_getitem /books_of /total_of /entry_of.
by case: (dict_get d n) => [e|] //=; rewrite dict_set_set.
Qed.

Lemma books_of_credit d n b a :
  books_of (credit d n b) a =
  if n == a then rcons (books_of d a) b else books_of d a.
Proof.
rewrite /books_of /entry_of dict_get_credit eq_sym.
by case: eqP => [->|].
Qed.

Lemma total_of_credit d n b a :
  total_of (credit d n b) a = total_of d a + (n == a).
Proof.
rewrite /total_of /entry_of dict_get_credit eq_sym.
by case: eqP => [->|] /=; rewrite ?addn0.
Qed.

Lemma books_of_credit_all d atts a :
  books_of (credit_all d atts) a =
  books_of d a ++ [seq x.2 | x <- atts & x.1 == a].
Proof.
elim: atts d => [|[n b] atts IH] d /=; first by rewrite cats0.
rewrite IH books_of_credit.
by case: eqP => _ //=; rewrite -cats1 -catA.
Qed.

Lemma total_of_credit_all d atts a :
  total_of (credit_all d atts) a =
  total_of d a + count_mem a [seq x.1 | x <- atts].
Proof.
elim: atts d => [|[n b] atts IH] d /=; first by rewrite addn0.
by rewrite IH total_of_credit addnA.
Qed.

Lemma sum_credit_all d atts :
  sum_total_books (credit_all d atts) = sum_total_books d + size atts.
Proof.
elim: atts d => [|[n b] atts IH] d /=; first by rewrite addn0.
by rewrite IH sum_credit -addnA add1n.
Qed.

(** ** The loop *)

Lemma for_each_cat (S X : Type) (body : S -> X -> result S) s xs ys :
  for_each body s (xs ++ ys) =
  (s' <-- for_each body s xs ;; for_each body s' ys).
Proof. by elim: xs s => [|x xs IH] s //=; case: (body s x). Qed.

Lemma attributeP d who row t role d' :
  attribute d who row t role = Ok d' ->
  exists atts,
    [/\ [seq x.1 | x <- atts] = attributed who,
        forall x, x \in atts -> book_dict row t role = Ok x.2 &
        d' = credit_all d atts].
Proof.
case: who => [|n] /=; first by case=> <-; exists [::].
case: ifP => _; last by case=> <-; exists [::].
case E: (book_dict row t role) => [b|] //= [<-].
by exists [:: (n, b)]; split=> // x; rewrite inE => /eqP ->.
Qed.

Lemma for_each_attributeP d whos row t role d' :
  for_each (fun d who => attribute d who row t role) d whos = Ok d' ->
  exists atts,
    [/\ [seq x.1 | x <- atts] = flatten [seq attributed who | who <- whos],
        forall x, x \in atts -> book_dict row t role = Ok x.2 &
        d' = credit_all d atts].
Proof.
elim: whos d => [|who whos IH] d /=; first by case=> <-; exists [::].
case A: (attribute d who row t role) => [d1|] //=.
have [atts1 [n1 b1 ->]] := attributeP A.
case/IH=> atts2 [n2 b2 ->].
exists (atts1 ++ atts2); split; first by rewrite map_cat n1 n2.
  by move=> x; rewrite mem_cat => /orP [/b1|/b2].
by rewrite /credit_all foldl_cat.
Qed.

Lemma process_rowP d row d' :
  process_row d row = Ok d' ->
  exists atts_p atts_a,
    [/\ [seq x.1 | x <- atts_p] = primary_names row,
        [seq x.1 | x <- atts_a] = additional_names row,
        forall x, x \in atts_p ->
          book_dict row (row_title row) None = Ok x.2,
        forall x, x \in atts_a ->
          book_dict row (row_title row) (Some (py "additional_author"))
          = Ok x.2 &
        d' = credit_all d (atts_p ++ atts_a)].
Proof.
rewrite /process_row /row_title /additional_names /primary_names.
rewrite /stripped_field.
case: (row_get row "Title" _) => [|t] //=.
case: (row_get row "Additional Authors" _) => [|s] //=.
case A: (attribute d _ row _ None) => [d1|] //=.
have [atts_p [np bp ->]] := attributeP A.
case: ifPn => [_|/negbNE/eqP ->].
  case/for_each_attributeP=> atts_a [na ba ->].
  exists atts_p, atts_a; split=> //; last by rewrite /credit_all foldl_cat.
  by rewrite na -map_comp.
by case=> <-; exists atts_p, [::]; split=> //; rewrite cats0.
Qed.

(** A property of the aggregate that every attribution keeps is kept by
    the loop. *)
Section Invariant.

Variable inv : Aggregate -> Prop.
Hypothesis inv_credit :
  forall d n b, n != [::] -> inv d -> inv (credit d n b).

Lemma inv_attribute d who row t role d' :
  inv d -> attribute d who row t role = Ok d' -> inv d'.
Proof.
move=> id; case: who => [|n] /=; first by case=> <-.
case: ifP => [n0|_]; last by case=> <-.
by case: (book_dict row t role) => [b|] //= [<-]; apply: inv_credit.
Qed.

Lemma inv_for_each_attribute d whos row t role d' :
  inv d ->
  for_each (fun d who => attribute d who row t role) d whos = Ok d' ->
  inv d'.
Proof.
elim: whos d => [|who whos IH] d id /=; first by case=> <-.
case A: (attribute d who row t role) => [d1|] //=.
by apply: IH; apply: inv_attribute A.
Qed.

Lemma inv_process_row d row d' :
  inv d -> process_row d row = Ok d' -> inv d'.
Proof.
move=> id; rewrite /process_row.
case: (method_strip (row_get row "Title" _)) => [t|] //=.
case: (method_strip (row_get row "Additional Authors" _)) => [s|] //=.
case A: (attribute d _ row t None) => [d1|] //=.
have id1 := inv_attribute id A.
case: ifP => _; last by case=> <-.
exact: inv_for_each_attribute.
Qed.

Lemma inv_for_each_row d rows d' :
  inv d -> for_each process_row d rows = Ok d' -> inv d'.
Proof.
elim: rows d => [|row rows IH] d id /=; first by case=> <-.
case P: (process_row d row) => [d1|] //=.
by apply: IH; apply: inv_process_row P.
Qed.

Lemma inv_aggregate_rows rows d :
  inv [::] -> aggregate_rows rows = Ok d -> inv d.
Proof. exact: inv_for_each_row. Qed.

End Invariant.

Lemma aggregate_rows_prefix rows1 rows2 d :
  aggregate_rows (rows1 ++ rows2) = Ok d ->
  exists2 d1, aggregate_rows rows1 = Ok d1 &
              for_each process_row d1 rows2 = Ok d.
Proof.
rewrite /aggregate_rows for_each_cat.
by case: (for_each process_row [::] rows1) => [d1|] //= E; exists d1.
Qed.

Lemma extract_aggregate rows d :
  extract_authors_from_goodreads rows = Ok d -> aggregate_rows rows = Ok d.
Proof.
rewrite /extract_authors_from_goodreads.
by case: (aggregate_rows rows) => [d1|] //=; case: rows => // _ _ [->].
Qed.

(** Rows whose fields are all strings are processed without error. *)
Lemma row_get_text row key s :
  row_is_text row -> exists s', row_get row key (PyStr s) = PyStr s'.
Proof.
elim: row => [|[k v] row IH] /=; first by exists s.
case/andP=> vt /IH rt; case: ifP => // _.
by case: v vt => // s' _; exists s'.
Qed.

Lemma attribute_total d who row t role :
  row_is_text row -> exists d', attribute d who row t role = Ok d'.
Proof.
move=> rt; case: who => [|n] /=; first by exists d.
case: ifP => _; last by exists d.
rewrite /book_dict; have [i ->] /= := row_get_text "ISBN13" [::] rt.
by eexists.
Qed.

Lemma for_each_attribute_total d whos row t role :
  row_is_text row ->
  exists d', for_each (fun d who => attribute d who row t role) d whos = Ok d'.
Proof.
move=> rt; elim: whos d => [|who whos IH] d /=; first by exists d.
by have [d1 ->] /= := attribute_total d who t role rt.
Qed.

Lemma process_row_total d row :
  row_is_text row -> exists d', process_row d row = Ok d'.
Proof.
move=> rt; rewrite /process_row.
have [t ->] /= := row_get_text "Title" [::] rt.
have [s ->] /= := row_get_text "Additional Authors" [::] rt.
have [d1 ->] /= :=
  attribute_total d (clean_author_name (row_get row "Author" (PyStr [::])))
    (str_strip t) None rt.
case: ifP => _; last by exists d1.
exact: for_each_attribute_total.
Qed.

Lemma aggregate_rows_total rows :
  all row_is_text rows -> exists d, aggregate_rows rows = Ok d.
Proof.
rewrite /aggregate_rows; move: [::].
elim: rows => [|row rows IH] d /=; first by exists d.
case/andP=> rt /IH rs.
by have [d1 ->] /= := process_row_total d rt.
Qed.

Lemma extract_total rows :
  all row_is_text rows -> rows != [::] ->
  exists d, extract_authors_from_goodreads rows = Ok d.
Proof.
move=> rt r0; have [d E] := aggregate_rows_total rt; exists d.
rewrite /extract_authors_from_goodreads E /=.
by case: rows r0 {rt E}.
Qed.

(** ** Invariants of the aggregate *)

Lemma entry_of_all (P : pred AuthorEntry) d n :
  all (fun x => P x.2) d -> P default_factory -> P (entry_of d n).
Proof.
move=> /allP Pd P0; rewrite /entry_of.
by case E: (dict_get d n) => [e|] //=; apply: (Pd _ (dict_get_mem E)).
Qed.

Lemma counts_agree_credit d n b :
  n != [::] -> counts_agree d -> counts_agree (credit d n b).
Proof.
move=> _ cd; rewrite creditE.
apply: (@all_set (fun e => total_books e == size (books e))) => //=.
rewrite size_rcons addn1 eqSS.
exact: (@entry_of_all (fun e => total_books e == size (books e))).
Qed.

Lemma no_empty_entry_credit d n b :
  n != [::] -> no_empty_entry d -> no_empty_entry (credit d n b).
Proof.
move=> _ nd; rewrite creditE; apply: (@all_set entry_has_book) => //=.
by rewrite /entry_has_book /= size_rcons addn1.
Qed.

Lemma uniq_keys_credit d n b :
  n != [::] -> uniq (keys d) -> uniq (keys (credit d n b)).
Proof. by move=> _; rewrite creditE; apply: uniq_keys_set. Qed.

Lemma visited_ind_inv (inv : Aggregate -> Prop) :
  (forall d n b, n != [::] -> inv d -> inv (credit d n b)) ->
  inv [::] -> forall d, visited d -> inv d.
Proof.
move=> step start d; elim=> {d} //.
- by move=> d who row t role d' _ id; apply: inv_attribute id.
- by move=> d row d' _ id; apply: inv_process_row id.
by move=> rows d /extract_aggregate; apply: inv_aggregate_rows.
Qed.

(** C2: in every state of the aggregate that a run passes through, and so
    in the aggregate returned, the counter of each author present equals
    the length of that author's list of books. *)
Theorem total_books_counts_books d : visited d -> counts_agree d.
Proof.
pose inv (d : Aggregate) : Prop := counts_agree d.
have step : forall d n b, n != [::] -> inv d -> inv (credit d n b).
  exact: counts_agree_credit.
elim=> {d} // [d who row t role d' _|d row d' _|rows d /extract_aggregate].
- exact: (inv_attribute step).
- exact: (inv_process_row step).
exact: (inv_aggregate_rows step).
Qed.

Lemma total_books_counts_books_witness :
  visited sample_aggregate /\ counts_agree sample_aggregate.
Proof.
have v : visited sample_aggregate.
  by apply: (@at_return sample_rows); vm_compute.
by split; [exact: v | apply: total_books_counts_books v].
Defined.

(** C10: every author of the aggregate returned has at least one book and
    a counter of at least one, and so has every author in the three
    views. *)
Theorem no_author_without_books rows d :
  extract_authors_from_goodreads rows = Ok d ->
  [/\ no_empty_entry d,
      all (fun a => 0 < Detailed.book_count a)
          (Detailed.authors (create_cache_warming_format d)),
      all (fun n => 0 < total_of d n) (create_simple_author_list d) &
      all (fun r => 0 < csv_book_count r) (csv_author_rows d)].
Proof.
move=> E; have v : visited d by apply: at_return E.
have nd : no_empty_entry d.
  exact: (@visited_ind_inv (fun d => no_empty_entry d)
            no_empty_entry_credit _ _ v).
have ns : all (fun x => entry_has_book x.2) (sorted_items d).
  by rewrite /sorted_items all_sort.
split=> //.
- rewrite /= all_map; apply: sub_all ns => x /=.
  by case/andP.
- rewrite /create_simple_author_list; apply/allP=> n /mapP [x + ->].
  rewrite mem_sort => /(map_f fst) /dict_get_keys [e ge].
  by move/(allP nd) => /andP [_]; rewrite /total_of /entry_of ge.
- rewrite /csv_author_rows all_map; apply: sub_all ns => x /=.
  by case/andP.
Qed.

Lemma no_author_without_books_witness :
  extract_authors_from_goodreads sample_rows = Ok sample_aggregate /\
  no_empty_entry sample_aggregate.
Proof.
have E : extract_authors_from_goodreads sample_rows = Ok sample_aggregate.
  by vm_compute.
by split; [exact: E | case: (no_author_without_books E)].
Defined.

(** ** What a record contributes *)

(** C1 (as amended): a record gives an author one book and one increment
    of the counter for each time it names that author: once if the
    primary author normalises to that name, and once for each entry of
    the additional-authors field that does.  The books are appended after
    those already there, the one of the primary attribution first, and
    each is the dictionary built from this record. *)
Theorem row_contribution d row d' a :
  process_row d row = Ok d' ->
  exists new_p new_a,
    [/\ books_of d' a = books_of d a ++ new_p ++ new_a,
        size new_p = count_mem a (primary_names row) /\
        (forall b, b \in new_p ->
           book_dict row (row_title row) None = Ok b),
        size new_a = count_mem a (additional_names row) /\
        (forall b, b \in new_a ->
           book_dict row (row_title row) (Some (py "additional_author"))
           = Ok b),
        size (books_of d' a) =
          size (books_of d a) + count_mem a (row_names row) &
        total_of d' a = total_of d a + count_mem a (row_names row)].
Proof.
case/process_rowP=> atts_p [atts_a [np na bp ba ->]].
have sz atts : size [seq x.2 | x <- atts & x.1 == a]
               = count_mem a [seq x.1 | x <- atts].
  by rewrite size_map size_filter count_map; apply: eq_count => x /=.
exists [seq x.2 | x <- atts_p & x.1 == a], [seq x.2 | x <- atts_a & x.1 == a].
split.
- by rewrite books_of_credit_all filter_cat map_cat.
- split; first by rewrite sz np.
  by move=> b /mapP [x]; rewrite mem_filter => /andP [_ /bp E] ->.
- split; first by rewrite sz na.
  by move=> b /mapP [x]; rewrite mem_filter => /andP [_ /ba E] ->.
- rewrite books_of_credit_all size_cat sz map_cat np na.
  by rewrite /row_names.
by rewrite total_of_credit_all map_cat np na.
Qed.

Lemma row_contribution_witness :
  process_row [::] repeated_author_row = Ok repeated_author_aggregate /\
  total_of repeated_author_aggregate (py "Jane Doe") = 3.
Proof.
have E : process_row [::] repeated_author_row = Ok repeated_author_aggregate.
  by vm_compute.
split; first exact: E.
have [new_p [new_a [_ _ _ _ ->]]] :=
  @row_contribution [::] repeated_author_row repeated_author_aggregate
    (py "Jane Doe") E.
by vm_compute.
Defined.

(** C1 fails as stated: a record that names the same author three times
    raises that author's counter by three, not by one. *)
Lemma row_counts_repeated_names :
  ~ (forall d row d' a,
       process_row d row = Ok d' ->
       total_of d' a = total_of d a + (a \in row_names row)).
Proof.
move/(_ [::] repeated_author_row _ (py "Jane Doe") (erefl _)).
by vm_compute.
Qed.

(** ** The sum of the counters *)

Lemma sum_process_row d row d' :
  process_row d row = Ok d' ->
  sum_total_books d' = sum_total_books d + size (row_names row).
Proof.
case/process_rowP=> atts_p [atts_a [np na _ _ ->]].
by rewrite sum_credit_all /row_names -np -na -map_cat size_map.
Qed.

Lemma sum_for_each_row d rows d' :
  for_each process_row d rows = Ok d' ->
  sum_total_books d' = sum_total_books d + attributions rows.
Proof.
elim: rows d => [|row rows IH] d /=; first by case=> <-; rewrite addn0.
case P: (process_row d row) => [d1|] //= /IH ->.
by rewrite (sum_process_row P) addnA.
Qed.

Lemma attributions_cat rows1 rows2 :
  attributions (rows1 ++ rows2) = attributions rows1 + attributions rows2.
Proof. by rewrite /attributions map_cat sumn_cat. Qed.

Lemma sum_sorted_items d :
  sumn [seq total_books x.2 | x <- sorted_items d] = sum_total_books d.
Proof. by apply/perm_sumn/perm_map; rewrite /sorted_items perm_sort. Qed.

(** C3: after any prefix of the records the counters add up to the number
    of valid attributions made so far, so that the sum never decreases
    from a prefix to a longer one; the aggregate of the whole input is the
    one returned, and the metadata of the detailed view report its sum and
    the number of its authors, which are distinct. *)
Theorem sum_total_books_counts_attributions rows1 rows2 d :
  aggregate_rows (rows1 ++ rows2) = Ok d ->
  exists d1,
    [/\ aggregate_rows rows1 = Ok d1 /\
        sum_total_books d1 = attributions rows1,
        sum_total_books d = attributions (rows1 ++ rows2) /\
        sum_total_books d1 <= sum_total_books d,
        extract_authors_from_goodreads (rows1 ++ rows2)
        = (if rows1 ++ rows2 is [::] then Raise UnboundLocalError else Ok d),
        Detailed.total_books
          (Detailed.metadata (create_cache_warming_format d))
        = attributions (rows1 ++ rows2) &
        uniq (keys d) /\
        Detailed.total_authors
          (Detailed.metadata (create_cache_warming_format d))
        = size (keys d)].
Proof.
move=> A; have sd := sum_for_each_row A.
have [d1 A1 R2] := aggregate_rows_prefix A.
exists d1; split.
- by rewrite (sum_for_each_row A1).
- split; first by rewrite sd.
  by rewrite (sum_for_each_row R2) leq_addr.
- by rewrite /extract_authors_from_goodreads A.
- by rewrite /= sum_sorted_items.
split; last by rewrite /= size_sort size_map.
exact: (@inv_aggregate_rows (fun d => uniq (keys d)) uniq_keys_credit _ _ _ A).
Qed.

Lemma sum_total_books_counts_attributions_witness :
  aggregate_rows (take 2 sample_rows ++ drop 2 sample_rows)
  = Ok sample_aggregate /\
  Detailed.total_books
    (Detailed.metadata (create_cache_warming_format sample_aggregate)) = 5.
Proof.
have A : aggregate_rows (take 2 sample_rows ++ drop 2 sample_rows)
         = Ok sample_aggregate by vm_compute.
split; first exact: A.
by have [d1 [_ _ _ -> _]] := sum_total_books_counts_attributions A.
Defined.

(** ** The views *)

Lemma uniq_map_inj (T U : eqType) (f : T -> U) (s : seq T) :
  uniq (map f s) -> {in s &, injective f}.
Proof.
elim: s => [|z s IH] //= /andP [nz us] x y.
rewrite !inE => /orP [/eqP ->|xs] /orP [/eqP ->|ys] // fxy.
- by case/negP: nz; rewrite fxy map_f.
- by case/negP: nz; rewrite -fxy map_f.
exact: IH.
Qed.

Lemma by_total_books_desc_total : total by_total_books_desc.
Proof. by move=> x y; rewrite /by_total_books_desc leq_total. Qed.

Lemma by_total_books_desc_trans : transitive by_total_books_desc.
Proof. by move=> y x z xy yz; apply: leq_trans yz xy. Qed.

Lemma by_total_books_desc_refl : reflexive by_total_books_desc.
Proof. by move=> x; rewrite /by_total_books_desc. Qed.

Lemma sorted_items_sorted d : sorted by_total_books_desc (sorted_items d).
Proof. exact: sort_sorted by_total_books_desc_total d. Qed.

(** Authors with the same number of books keep their insertion order. *)
Lemma sorted_items_stable d c :
  [seq x <- sorted_items d | total_books x.2 == c]
  = [seq x <- d | total_books x.2 == c].
Proof.
rewrite /sorted_items.
rewrite (filter_sort by_total_books_desc_total by_total_books_desc_trans).
apply: (sorted_sort by_total_books_desc_trans).
have: all (fun x => total_books x.2 == c) [seq x <- d | total_books x.2 == c].
  exact: filter_all.
elim: [seq x <- d | total_books x.2 == c] => [|x [|y s] IH] //=.
case/and3P=> /eqP xc /eqP yc ys.
rewrite {1}/by_total_books_desc xc yc leqnn /=.
by apply: IH; rewrite /= yc eqxx.
Qed.

Lemma keys_sorted_items d : perm_eq [seq x.1 | x <- sorted_items d] (keys d).
Proof. by apply: perm_map; rewrite /sorted_items perm_sort. Qed.

(** In the sorted items an author with more books comes first. *)
Lemma rank_sorted_items d A B eA eB :
  uniq (keys d) -> dict_get d A = Some eA -> dict_get d B = Some eB ->
  total_books eB < total_books eA ->
  appears_before A B [seq x.1 | x <- sorted_items d].
Proof.
move=> ud /dict_get_mem Ad /dict_get_mem Bd lt.
set s := sorted_items d.
have us : uniq [seq x.1 | x <- s] by rewrite (perm_uniq (keys_sorted_items d)).
have As : (A, eA) \in s by rewrite mem_sort.
have Bs : (B, eB) \in s by rewrite mem_sort.
have iA : index A [seq x.1 | x <- s] = index (A, eA) s.
  exact: (@index_map_in _ _ fst s (A, eA) (uniq_map_inj us) As).
have iB : index B [seq x.1 | x <- s] = index (B, eB) s.
  exact: (@index_map_in _ _ fst s (B, eB) (uniq_map_inj us) Bs).
apply/and3P; split; [exact: (map_f fst As) | exact: (map_f fst Bs) |].
rewrite iA iB ltnNge; apply/negP => le.
have := sorted_leq_index by_total_books_desc_trans by_total_books_desc_refl
          (sorted_items_sorted d) _ _ Bs As le.
by rewrite /by_total_books_desc /= leqNgt lt.
Qed.

(** The three files [main] writes are views of the one aggregate that the
    extraction returns. *)
Lemma main_outputs rows out :
  main rows = Ok out ->
  exists2 d, extract_authors_from_goodreads rows = Ok d &
    [/\ detailed_json out = create_cache_warming_format d,
        simple_json out = create_simple_author_list d &
        cache_csv out = csv_header :: csv_author_rows d].
Proof.
rewrite /main; case: (extract_authors_from_goodreads rows) => [d|] //= [<-].
by exists d.
Qed.

(** C8: the three views list the authors in one and the same order, in
    which an author with strictly more books comes before one with
    fewer: the simple list is the column of names of the detailed view,
    and the table is its columns of names and counts. *)
Theorem views_rank_alike d A B eA eB :
  uniq (keys d) -> dict_get d A = Some eA -> dict_get d B = Some eB ->
  total_books eB < total_books eA ->
  [/\ appears_before A B (detailed_names (create_cache_warming_format d)),
      appears_before A B (create_simple_author_list d),
      appears_before A B [seq csv_author r | r <- csv_author_rows d],
      create_simple_author_list d
      = detailed_names (create_cache_warming_format d) &
      csv_author_rows d
      = [seq [:: CellStr (Detailed.name a); CellInt (Detailed.book_count a)]
        | a <- Detailed.authors (create_cache_warming_format d)]].
Proof.
move=> ud gA gB lt; have r := rank_sorted_items ud gA gB lt.
have simple : create_simple_author_list d
              = detailed_names (create_cache_warming_format d).
  by rewrite /detailed_names /= -map_comp.
split=> //.
- by rewrite -simple.
- by rewrite /csv_author_rows -map_comp.
by rewrite /csv_author_rows /= -map_comp.
Qed.

Lemma views_rank_alike_witness :
  [/\ uniq (keys sample_aggregate),
      dict_get sample_aggregate (py "Jane Doe")
      = Some (entry_of sample_aggregate (py "Jane Doe")),
      dict_get sample_aggregate (py "John Roe")
      = Some (entry_of sample_aggregate (py "John Roe")),
      total_books (entry_of sample_aggregate (py "John Roe"))
      < total_books (entry_of sample_aggregate (py "Jane Doe")) &
      appears_before (py "Jane Doe") (py "John Roe")
        (create_simple_author_list sample_aggregate)].
Proof.
have u : uniq (keys sample_aggregate) by vm_compute.
have gA : dict_get sample_aggregate (py "Jane Doe")
          = Some (entry_of sample_aggregate (py "Jane Doe")) by vm_compute.
have gB : dict_get sample_aggregate (py "John Roe")
          = Some (entry_of sample_aggregate (py "John Roe")) by vm_compute.
have lt : total_books (entry_of sample_aggregate (py "John Roe"))
          < total_books (entry_of sample_aggregate (py "Jane Doe")).
  by vm_compute.
split; [exact: u | exact: gA | exact: gB | exact: lt |].
by case: (views_rank_alike u gA gB lt) => _ r _ _ _; exact: r.
Defined.

(** C9: the detailed view gives each author the first ten books of the
    entry, in the order they were appended, and the full counter, which
    is the number of all the books of the entry; with fifteen books the
    view has ten of them and reports fifteen. *)
Theorem detailed_books_truncated rows d A e :
  extract_authors_from_goodreads rows = Ok d ->
  dict_get d A = Some e ->
  exists2 a, a \in Detailed.authors (create_cache_warming_format d) &
    [/\ Detailed.name a = A /\
        (forall a', a' \in Detailed.authors (create_cache_warming_format d) ->
                    Detailed.name a' = A -> a' = a),
        Detailed.books a = take 10 (books e),
        size (Detailed.books a) = minn 10 (size (books e)),
        Detailed.book_count a = total_books e /\
        Detailed.book_count a = size (books e) &
        size (books e) = 15 ->
        size (Detailed.books a) = 10 /\ Detailed.book_count a = 15].
Proof.
move=> E ge; have ran := extract_aggregate E.
have ud : uniq (keys d).
  exact: (@inv_aggregate_rows (fun d => uniq (keys d))
            uniq_keys_credit _ _ _ ran).
have /allP cd : counts_agree d.
  exact: (@inv_aggregate_rows (fun d => counts_agree d)
            counts_agree_credit _ _ _ ran).
have Ad := dict_get_mem ge.
have /eqP te := cd _ Ad.
pose view (x : pystr * AuthorEntry) :=
  {| Detailed.name := x.1; Detailed.book_count := total_books x.2;
     Detailed.books := take 10 (books x.2) |}.
exists (view (A, e)).
  by apply: (map_f view); rewrite mem_sort.
split=> //=.
- split=> // a' /mapP [[A' e']]; rewrite mem_sort => xd -> /= A'A.
  by move: xd; rewrite A'A => /(mem_dict_get ud); rewrite ge => -[->].
- by rewrite size_take_min.
by move=> sz; rewrite size_take_min te sz.
Qed.

Lemma detailed_books_truncated_witness :
  [/\ extract_authors_from_goodreads fifteen_rows = Ok fifteen_aggregate,
      dict_get fifteen_aggregate (py "Jane Doe")
      = Some (entry_of fifteen_aggregate (py "Jane Doe")) &
      exists2 a,
        a \in Detailed.authors (create_cache_warming_format fifteen_aggregate)
        & size (Detailed.books a) = 10 /\ Detailed.book_count a = 15].
Proof.
have E : extract_authors_from_goodreads fifteen_rows = Ok fifteen_aggregate.
  by vm_compute.
have g : dict_get fifteen_aggregate (py "Jane Doe")
         = Some (entry_of fifteen_aggregate (py "Jane Doe")) by vm_compute.
have sz : size (books (entry_of fifteen_aggregate (py "Jane Doe"))) = 15.
  by vm_compute.
split; [exact: E | exact: g |].
case: (detailed_books_truncated E g) => a ain [_ _ _ _ fifteen].
by exists a; [exact: ain | exact: fifteen sz].
Defined.

(** ** The ISBN of the export *)

(** C7: on the ISBN column as the export writes it, the quote is looked
    for before the equals sign is removed, so that the leading quote
    stays in the stored value. *)
Theorem excel_isbn_keeps_quote :
  exists2 d, extract_authors_from_goodreads [:: excel_row] = Ok d &
    [seq isbn b | b <- books_of d (py "Suzanne Collins")]
    = [:: dquote :: py "9780439023481"].
Proof.
by eexists; [vm_compute; reflexivity | vm_compute].
Qed.

(** * The run in closed form *)

Lemma book_dictE row t role :
  book_dict row t role =
  if field_is_none row "ISBN13" then Raise AttributeError
  else Ok (book_of row t role).
Proof.
rewrite /book_dict /book_of /field_is_none /stripped_field.
by case: (row_get row "ISBN13" _).
Qed.

Lemma attributeE d who row t role :
  attribute d who row t role =
  if field_is_none row "ISBN13" && (attributed who != [::])
  then Raise AttributeError
  else Ok (credit_all d [seq (n, book_of row t role) | n <- attributed who]).
Proof.
case: who => [|n] /=; first by rewrite andbF.
case: ifP => _ /=; last by rewrite andbF.
by rewrite book_dictE andbT; case: ifP.
Qed.

Lemma for_each_attributeE d whos row t role :
  for_each (fun d who => attribute d who row t role) d whos =
  if field_is_none row "ISBN13"
     && (flatten [seq attributed who | who <- whos] != [::])
  then Raise AttributeError
  else Ok (credit_all d [seq (n, book_of row t role)
                        | n <- flatten [seq attributed who | who <- whos]]).
Proof.
elim: whos d => [|who whos IH] d /=; first by rewrite andbF.
rewrite attributeE; case: (field_is_none row "ISBN13") (IH) => /= IH'.
  by case: (attributed who) => [|n ns] //=.
by rewrite IH' map_cat /credit_all foldl_cat.
Qed.

Lemma additional_names_empty row :
  stripped_field row "Additional Authors" = [::] ->
  additional_names row = [::].
Proof. by rewrite /additional_names => ->. Qed.

Lemma method_strip_field row key :
  method_strip (row_get row key (PyStr [::])) =
  if field_is_none row key then Raise AttributeError
  else Ok (stripped_field row key).
Proof.
rewrite /field_is_none /stripped_field.
by case: (row_get row key _).
Qed.

Lemma process_rowE d row :
  process_row d row =
  if row_raises row then Raise AttributeError
  else Ok (credit_all d (row_attributions row)).
Proof.
rewrite /process_row /row_raises !method_strip_field.
case: (field_is_none row "Title") => //=.
case: (field_is_none row "Additional Authors") => //=.
rewrite attributeE -/(row_title row) -/(primary_names row).
rewrite /row_attributions /row_names.
case: (altP (stripped_field row "Additional Authors" =P [::])) => [a0|_] /=.
  rewrite (additional_names_empty a0) !cats0.
  by case: ifP.
rewrite /additional_names.
case isn: (field_is_none row "ISBN13") => /=; last first.
  by rewrite for_each_attributeE isn /= -map_comp /credit_all foldl_cat.
case: (primary_names row) => [|n ns] //=.
by rewrite for_each_attributeE isn /= -map_comp.
Qed.

Lemma for_each_rowE d rows :
  for_each process_row d rows =
  if has row_raises rows then Raise AttributeError
  else Ok (credit_all d (all_attributions rows)).
Proof.
elim: rows d => [|row rows IH] d //=.
rewrite process_rowE; case: (row_raises row) => //=.
by rewrite IH; case: (has _ _) => //; rewrite /all_attributions /credit_all /= foldl_cat.
Qed.

Lemma aggregate_rows_credit rows d :
  aggregate_rows rows = Ok d ->
  ~~ has row_raises rows /\ d = credit_all [::] (all_attributions rows).
Proof.
by rewrite /aggregate_rows for_each_rowE; case: (has _ _) => // -[<-].
Qed.

Lemma names_row_attributions row :
  [seq x.1 | x <- row_attributions row] = row_names row.
Proof.
by rewrite /row_attributions /row_names map_cat -!map_comp !map_id.
Qed.

Lemma names_all_attributions rows :
  [seq x.1 | x <- all_attributions rows] = all_names rows.
Proof.
rewrite /all_attributions /all_names map_flatten -map_comp.
by congr flatten; apply: eq_map => row /=; rewrite names_row_attributions.
Qed.

(** ** First occurrences *)

Lemma first_seen_rcons s x :
  first_seen (rcons s x) =
  if x \in s then first_seen s else rcons (first_seen s) x.
Proof.
by rewrite /first_seen rev_rcons /= mem_rev; case: ifP => // _; rewrite rev_cons.
Qed.

Lemma mem_first_seen s : first_seen s =i s.
Proof. by move=> x; rewrite /first_seen mem_rev mem_undup mem_rev. Qed.

Lemma first_seen_uniq s : uniq (first_seen s).
Proof. by rewrite /first_seen rev_uniq undup_uniq. Qed.

Lemma first_seen_id s : uniq s -> first_seen s = s.
Proof. by move=> us; rewrite /first_seen undup_id ?rev_uniq // revK. Qed.

Lemma first_seen_cat s1 s2 :
  first_seen (s1 ++ s2) =
  first_seen s1 ++ [seq x <- first_seen s2 | x \notin s1].
Proof.
elim/last_ind: s2 => [|s2 x IH]; first by rewrite cats0 /first_seen /= cats0.
rewrite -rcons_cat !first_seen_rcons mem_cat IH.
case xs2: (x \in s2); first by rewrite orbT.
rewrite orbF filter_rcons.
by case: (x \in s1) => //=; rewrite rcons_cat.
Qed.

Lemma keys_credit d n b :
  keys (credit d n b) = if n \in keys d then keys d else rcons (keys d) n.
Proof. by rewrite creditE keys_set. Qed.

Lemma keys_credit_all d atts :
  uniq (keys d) ->
  keys (credit_all d atts) = first_seen (keys d ++ [seq x.1 | x <- atts]).
Proof.
move=> ud; elim/last_ind: atts => [|atts x IH] /=.
  by rewrite cats0 first_seen_id.
rewrite /credit_all -cats1 foldl_cat /= -/(credit_all d atts) keys_credit IH.
by rewrite map_cat /= cats1 -rcons_cat first_seen_rcons mem_first_seen.
Qed.

Lemma books_of_nil a : books_of [::] a = [::].
Proof. by []. Qed.

Lemma total_of_nil a : total_of [::] a = 0.
Proof. by []. Qed.

(** * Further properties of the run *)

(** X1: the body of the loop raises on a row exactly when the row is too
    short to have the Title or the Additional Authors column, or too short
    to have the ISBN13 column while it names a valid author; the exception
    is [AttributeError], whatever the aggregate built so far.  A row that
    lacks only the rating or the shelf is processed. *)
Theorem short_row_raises d row e :
  process_row d row = Raise e <-> row_raises row /\ e = AttributeError.
Proof.
rewrite process_rowE; case: (row_raises row); split=> //.
- by case=> <-.
- by case=> _ ->.
by case.
Qed.

(** X2: the function in closed form.  It raises [AttributeError] when some
    row raises, [UnboundLocalError] when there is no row at all, and
    otherwise returns the empty aggregate credited with the attributions
    of all the rows in input order. *)
Theorem extract_closed_form rows :
  extract_authors_from_goodreads rows =
  if has row_raises rows then Raise AttributeError
  else if rows is [::] then Raise UnboundLocalError
  else Ok (credit_all [::] (all_attributions rows)).
Proof.
rewrite /extract_authors_from_goodreads /aggregate_rows for_each_rowE.
by case: (has _ _).
Qed.

(** X3: the counter of an author is the number of times the rows name the
    author, which is also the number of the author's books, and the
    authors of the aggregate are exactly the names the rows name. *)
Theorem author_total_is_attribution_count rows d a :
  aggregate_rows rows = Ok d ->
  [/\ total_of d a = count_mem a (all_names rows),
      size (books_of d a) = count_mem a (all_names rows) &
      (a \in keys d) = (a \in all_names rows)].
Proof.
case/aggregate_rows_credit=> _ ->; split.
- by rewrite total_of_credit_all names_all_attributions.
- rewrite books_of_credit_all /= size_map size_filter -names_all_attributions.
  by rewrite count_map; apply: eq_count => x /=.
by rewrite keys_credit_all // mem_first_seen /= names_all_attributions.
Qed.

Lemma author_total_is_attribution_count_witness :
  aggregate_rows sample_rows = Ok sample_aggregate /\
  total_of sample_aggregate (py "Jane Doe") = 3.
Proof.
have A : aggregate_rows sample_rows = Ok sample_aggregate by vm_compute.
split; first exact: A.
have [-> _ _] := author_total_is_attribution_count (py "Jane Doe") A.
by vm_compute.
Defined.

(** X4: the authors are kept in the order in which the input first names
    them, each once. *)
Theorem keys_in_first_seen_order rows d :
  aggregate_rows rows = Ok d ->
  keys d = first_seen (all_names rows) /\ uniq (keys d).
Proof.
case/aggregate_rows_credit=> _ ->.
by rewrite keys_credit_all //= names_all_attributions first_seen_uniq.
Qed.

Lemma keys_in_first_seen_order_witness :
  aggregate_rows sample_rows = Ok sample_aggregate /\
  keys sample_aggregate = [:: py "Jane Doe"; py "John Roe"].
Proof.
have A : aggregate_rows sample_rows = Ok sample_aggregate by vm_compute.
split; first exact: A.
have [-> _] := keys_in_first_seen_order A.
by vm_compute.
Defined.

Lemma books_of_attributions (names : seq pystr) (b : BookReference) a :
  [seq x.2 | x <- [seq (n, b) | n <- names] & x.1 == a]
  = nseq (count_mem a names) b.
Proof.
elim: names => [|n names IH] //=.
by case: eqP => _ /=; rewrite IH.
Qed.

(** X5: the books of an author are those of the attributions to the
    author, in input order: their titles are the trimmed titles of the
    rows, in the order of the rows, each as often as the row names the
    author. *)
Theorem author_books_in_input_order rows d a :
  aggregate_rows rows = Ok d ->
  books_of d a = [seq x.2 | x <- all_attributions rows & x.1 == a] /\
  [seq title b | b <- books_of d a]
  = flatten [seq nseq (count_mem a (row_names row)) (row_title row)
            | row <- rows].
Proof.
case/aggregate_rows_credit=> _ ->.
rewrite books_of_credit_all /=; split=> //.
rewrite /all_attributions.
elim: rows => [|row rows IH] //=.
rewrite filter_cat !map_cat IH; congr (_ ++ _).
rewrite /row_attributions filter_cat map_cat !books_of_attributions.
by rewrite map_cat !map_nseq /row_names count_cat nseqD.
Qed.

Lemma author_books_in_input_order_witness :
  aggregate_rows sample_rows = Ok sample_aggregate /\
  [seq title b | b <- books_of sample_aggregate (py "Jane Doe")]
  = [:: py "T1"; py "T2"; py "T3"].
Proof.
have A : aggregate_rows sample_rows = Ok sample_aggregate by vm_compute.
split; first exact: A.
have [_ ->] := author_books_in_input_order (py "Jane Doe") A.
by vm_compute.
Defined.

Lemma perm_all_attributions rows1 rows2 :
  perm_eq rows1 rows2 ->
  perm_eq (all_attributions rows1) (all_attributions rows2).
Proof. by move=> pr; apply/perm_flatten/perm_map. Qed.

(** X6: the order of the rows does not matter for the counts: on the same
    rows in another order the function returns as well, every author has
    the same counter and the same books up to their order, and the
    authors are the same. *)
Theorem row_order_irrelevant_for_counts rows1 rows2 d1 :
  perm_eq rows1 rows2 ->
  aggregate_rows rows1 = Ok d1 ->
  exists2 d2, aggregate_rows rows2 = Ok d2 &
    forall a, [/\ total_of d1 a = total_of d2 a,
                  perm_eq (books_of d1 a) (books_of d2 a) &
                  perm_eq (keys d1) (keys d2)].
Proof.
move=> pr /aggregate_rows_credit [ok1 ->].
have pa := perm_all_attributions pr.
exists (credit_all [::] (all_attributions rows2)).
  by rewrite /aggregate_rows for_each_rowE -(perm_has _ pr) (negbTE ok1).
move=> a; split.
- rewrite !total_of_credit_all; congr (_ + _).
  exact/permP/perm_map.
- by rewrite !books_of_credit_all /=; apply/perm_map/perm_filter.
rewrite !keys_credit_all //=.
apply: uniq_perm; rewrite ?first_seen_uniq // => k.
by rewrite !mem_first_seen; apply/perm_mem/perm_map.
Qed.

Lemma row_order_irrelevant_for_counts_witness :
  [/\ perm_eq sample_rows (rev sample_rows),
      aggregate_rows sample_rows = Ok sample_aggregate &
      exists2 d2, aggregate_rows (rev sample_rows) = Ok d2 &
        total_of sample_aggregate (py "Jane Doe") = total_of d2 (py "Jane Doe")].
Proof.
have pr : perm_eq sample_rows (rev sample_rows) by rewrite perm_sym perm_rev.
have A : aggregate_rows sample_rows = Ok sample_aggregate by vm_compute.
split; [exact: pr | exact: A |].
have [d2 A2 same] := row_order_irrelevant_for_counts pr A.
by exists d2; [exact: A2 | case: (same (py "Jane Doe"))].
Defined.

(** X7: processing one input after another gives, for every author, the
    books and the counter of the first followed by, and added to, those
    of the second; the authors new in the second input come after those
    of the first. *)
Theorem aggregate_of_concatenation rows1 rows2 d1 d2 :
  aggregate_rows rows1 = Ok d1 ->
  aggregate_rows rows2 = Ok d2 ->
  exists2 d, aggregate_rows (rows1 ++ rows2) = Ok d &
    (forall a, books_of d a = books_of d1 a ++ books_of d2 a /\
               total_of d a = total_of d1 a + total_of d2 a) /\
    keys d = keys d1 ++ [seq k <- keys d2 | k \notin keys d1].
Proof.
case/aggregate_rows_credit=> ok1 -> /aggregate_rows_credit [ok2 ->].
exists (credit_all [::] (all_attributions (rows1 ++ rows2))).
  by rewrite /aggregate_rows for_each_rowE has_cat (negbTE ok1) (negbTE ok2).
have -> : all_attributions (rows1 ++ rows2)
          = all_attributions rows1 ++ all_attributions rows2.
  by rewrite /all_attributions map_cat flatten_cat.
split=> [a|].
  rewrite !books_of_credit_all !total_of_credit_all /=.
  by rewrite filter_cat !map_cat count_cat.
rewrite !keys_credit_all //= map_cat first_seen_cat; congr (_ ++ _).
by apply: eq_filter => k; rewrite mem_first_seen.
Qed.

Lemma aggregate_of_concatenation_witness :
  [/\ aggregate_rows (take 1 sample_rows)
      = Ok (credit_all [::] (all_attributions (take 1 sample_rows))),
      aggregate_rows (drop 1 sample_rows)
      = Ok (credit_all [::] (all_attributions (drop 1 sample_rows))) &
      exists2 d,
        aggregate_rows (take 1 sample_rows ++ drop 1 sample_rows) = Ok d &
        total_of d (py "Jane Doe") = 3].
Proof.
have A1 : aggregate_rows (take 1 sample_rows)
   = Ok (credit_all [::] (all_attributions (take 1 sample_rows))).
  by vm_compute.
have A2 : aggregate_rows (drop 1 sample_rows)
   = Ok (credit_all [::] (all_attributions (drop 1 sample_rows))).
  by vm_compute.
split; [exact: A1 | exact: A2 |].
have [d A [per _]] := aggregate_of_concatenation A1 A2.
exists d; first exact: A.
by have [_ ->] := per (py "Jane Doe"); vm_compute.
Defined.

(** * Further properties of the names *)

Lemma clean_valid s n :
  clean_author_name (PyStr s) = PyStr n ->
  [/\ n = cleaned s, n != [::], ~~ has (caseless_eq n) skip_words,
      head_free Py_UNICODE_ISSPACE n & last_free Py_UNICODE_ISSPACE n].
Proof.
rewrite clean_author_nameE; case: ifP => // /negbT; rewrite negb_or.
case/andP=> n0 ns [<-]; have [hf lf] := cleaned_free s.
by split.
Qed.

Lemma attributedP who n :
  n \in attributed who -> who = PyStr n /\ n != [::].
Proof.
case: who => [|m] //=; case: ifP => // m0.
by rewrite inE => /eqP ->.
Qed.

Lemma row_names_clean row n :
  n \in row_names row -> exists s, clean_author_name (PyStr s) = PyStr n.
Proof.
rewrite /row_names mem_cat => /orP [].
  rewrite /primary_names => /attributedP [].
  case: (row_get row "Author" _) => [|s] // E _.
  by exists s.
rewrite /additional_names => /flattenP [ns /mapP [s _ ->]] /attributedP [E _].
by exists s.
Qed.

(** X8: every author of the aggregate is a name that the cleaning
    returned for some field: it is not empty, has no white space at either
    end, and is not a skip word in any spelling of its letters' case. *)
Theorem aggregate_keys_are_clean_names rows d k :
  aggregate_rows rows = Ok d -> k \in keys d ->
  [/\ k != [::],
      head_free Py_UNICODE_ISSPACE k && last_free Py_UNICODE_ISSPACE k,
      ~~ has (caseless_eq k) skip_words &
      exists s, clean_author_name (PyStr s) = PyStr k].
Proof.
case/aggregate_rows_credit=> _ ->.
rewrite keys_credit_all // mem_first_seen /= names_all_attributions.
case/flattenP=> ns /mapP [row _ ->] /row_names_clean [s E].
have [_ k0 ks hf lf] := clean_valid E.
by split; rewrite ?hf ?lf //; exists s.
Qed.

Lemma aggregate_keys_are_clean_names_witness :
  [/\ aggregate_rows sample_rows = Ok sample_aggregate,
      py "John Roe" \in keys sample_aggregate &
      ~~ has (caseless_eq (py "John Roe")) skip_words].
Proof.
have A : aggregate_rows sample_rows = Ok sample_aggregate by vm_compute.
have K : py "John Roe" \in keys sample_aggregate by vm_compute.
split; [exact: A | exact: K |].
by case: (aggregate_keys_are_clean_names A K).
Defined.

Lemma strip_by_infix (p : pred codepoint) s :
  exists a b, [/\ s = a ++ strip_by p s ++ b, all p a & all p b].
Proof. by have [a [b [sE ap bp _ _]]] := strip_byP p s; exists a, b. Qed.

(** X9: the cleaning only takes characters from the two ends of the
    field, and only white space and double quotes: the name returned is a
    piece of the field, with the characters inside it as they were. *)
Theorem clean_author_name_keeps_inside s n :
  clean_author_name (PyStr s) = PyStr n ->
  exists a b,
    [/\ s = a ++ n ++ b, all space_or_quote a, all space_or_quote b &
        n != [::]].
Proof.
case/clean_valid=> -> n0 _ _ _.
have [a1 [b1 [E1 pa1 pb1]]] := strip_by_infix Py_UNICODE_ISSPACE s.
have [a2 [b2 [E2 pa2 pb2]]] :=
  strip_by_infix (fun c => c \in [:: dquote]) (str_strip s).
have [a3 [b3 [E3 pa3 pb3]]] :=
  strip_by_infix Py_UNICODE_ISSPACE (str_strip_chars [:: dquote] (str_strip s)).
have ws t : all Py_UNICODE_ISSPACE t -> all space_or_quote t.
  by apply: sub_all => c; rewrite /space_or_quote => ->.
have qu t : all (fun c => c \in [:: dquote]) t -> all space_or_quote t.
  by apply: sub_all => c; rewrite /space_or_quote inE => ->; rewrite orbT.
exists (a1 ++ a2 ++ a3), (b3 ++ b2 ++ b1); split=> //.
- rewrite [in LHS]E1 -/(str_strip s) [in LHS]E2.
  rewrite -/(str_strip_chars [:: dquote] (str_strip s)) [in LHS]E3.
  by rewrite -/(cleaned s) -!catA.
- by rewrite !all_cat ws // qu // ws.
by rewrite !all_cat ws // qu // ws.
Qed.

Lemma clean_author_name_keeps_inside_witness :
  clean_author_name (PyStr quoted_apart)
  = PyStr ([:: dquote] ++ py "Foo" ++ [:: dquote]) /\
  exists a b, quoted_apart = a ++ ([:: dquote] ++ py "Foo" ++ [:: dquote]) ++ b.
Proof.
have E : clean_author_name (PyStr quoted_apart)
         = PyStr ([:: dquote] ++ py "Foo" ++ [:: dquote]) by vm_compute.
split; first exact: E.
have [a [b [sE _ _ _]]] := clean_author_name_keeps_inside E.
by exists a, b.
Defined.

(** X10: the names the cleaning returns unchanged are exactly the
    non-empty ones that have neither white space nor a double quote at
    either end and do not match a skip word with case ignored: that are
    not a skip word written with, at each place, the letter, its capital
    or one of the four letters outside ASCII that stand for it. *)
Theorem clean_author_name_fixed_points s :
  (clean_author_name (PyStr s) == PyStr s) =
  [&& s != [::],
      head_free Py_UNICODE_ISSPACE s && last_free Py_UNICODE_ISSPACE s,
      ~~ begins_with dquote s && ~~ ends_with dquote s &
      ~~ has (matches_ignoring_case s) skip_words].
Proof.
rewrite -has_caseless_eq -head_free_dquote -last_free_dquote.
apply/idP/idP.
  move/eqP=> E; have [cE s0 sk hf lf] := clean_valid E.
  rewrite s0 hf lf sk /= andbT.
  have sz1 : size (str_strip s) = size s.
    apply/eqP; rewrite eqn_leq size_strip_by /= [in X in X <= _]cE.
    by apply: leq_trans (size_strip_by _ _) (size_strip_by _ _).
  have s1 : str_strip s = s := strip_by_size_id sz1.
  have sz2 : size (str_strip_chars [:: dquote] s) = size s.
    apply/eqP; rewrite eqn_leq size_strip_by /= [in X in X <= _]cE.
    by rewrite /cleaned s1 size_strip_by.
  by have [-> ->] := strip_by_fix (strip_by_size_id sz2).
case/and4P=> s0 /andP [hf lf] /andP [hq lq] sk.
rewrite clean_author_nameE.
have -> : cleaned s = s.
  by rewrite /cleaned [str_strip s]strip_by_id // [str_strip_chars _ s]strip_by_id //
             [str_strip s]strip_by_id.
by rewrite (negbTE s0) (negbTE sk).
Qed.

Lemma lstrip_by_all (p : pred codepoint) s : all p s -> lstrip_by p s = [::].
Proof. by elim: s => [|c s IH] //= /andP [-> /IH]. Qed.

Lemma strip_by_all (p : pred codepoint) s : all p s -> strip_by p s = [::].
Proof. by move=> ps; rewrite /strip_by lstrip_by_all. Qed.

(** X11: a field made of white space only, or of double quotes only, has
    no valid name. *)
Theorem blank_field_has_no_name s :
  all Py_UNICODE_ISSPACE s || all (pred1 dquote) s ->
  clean_author_name (PyStr s) = PyNone.
Proof.
rewrite clean_author_nameE => blank.
suff -> : cleaned s = [::] by [].
case/orP: blank => [ws|qs]; first by rewrite /cleaned [str_strip s]strip_by_all.
have nq c : c == dquote -> ~~ Py_UNICODE_ISSPACE c by move/eqP->.
have hf : head_free Py_UNICODE_ISSPACE s.
  by case: s qs => [|c s] //= /andP [/nq].
have lf : last_free Py_UNICODE_ISSPACE s.
  rewrite /last_free; move: qs; rewrite -all_rev.
  by case: (rev s) => [|c t] //= /andP [/nq].
rewrite /cleaned [str_strip s]strip_by_id //.
rewrite [str_strip_chars _ s]strip_by_all //.
by apply: sub_all qs => c /=; rewrite inE.
Qed.

Lemma blank_field_has_no_name_witness :
  all Py_UNICODE_ISSPACE (py "   ") || all (pred1 dquote) (py "   ") /\
  clean_author_name (PyStr (py "   ")) = PyNone.
Proof.
have B : all Py_UNICODE_ISSPACE (py "   ") || all (pred1 dquote) (py "   ").
  by vm_compute.
by split; [exact: B | exact: (blank_field_has_no_name B)].
Defined.

(** * Further properties of the books *)

Lemma head_free_char q s :
  head_free (fun c => c \in [:: q]) s = ~~ begins_with q s.
Proof. by case: s => [|x s] //=; rewrite inE. Qed.

Lemma last_free_char q s :
  last_free (fun c => c \in [:: q]) s = ~~ ends_with q s.
Proof. by rewrite /last_free head_free_char. Qed.

Lemma row_get_lacks row key dflt :
  lacks_column row key -> row_get row key dflt = dflt.
Proof.
rewrite /lacks_column; elim: row => [|[k v] row IH] //=.
by rewrite inE negb_or eq_sym => /andP [/negbTE -> /IH].
Qed.

(** Every book of the aggregate is the dictionary of an attribution of
    one of the rows. *)
Lemma book_provenance rows d a b :
  aggregate_rows rows = Ok d -> b \in books_of d a ->
  exists2 row, row \in rows &
    (a \in primary_names row /\ b = book_of row (row_title row) None) \/
    (a \in additional_names row /\
     b = book_of row (row_title row) (Some (py "additional_author"))).
Proof.
case/aggregate_rows_credit=> _ ->; rewrite books_of_credit_all /=.
case/mapP=> x; rewrite mem_filter => /andP [/eqP xa] + ->.
case/flattenP=> atts /mapP [row rin ->]; rewrite mem_cat => xin.
exists row => //; case/orP: xin => /mapP [n nin xE]; [left | right];
  by move: xa; rewrite xE /= => <-.
Qed.

(** X12: no ISBN of the aggregate begins or ends with an equals sign. *)
Theorem stored_isbn_has_no_equals_at_ends rows d a b :
  aggregate_rows rows = Ok d -> b \in books_of d a ->
  ~~ begins_with equals_sign (isbn b) && ~~ ends_with equals_sign (isbn b).
Proof.
move=> A /(book_provenance A) [row _ from].
have -> : isbn b = str_strip_chars [:: equals_sign]
                     (str_strip_chars [:: dquote] (stripped_field row "ISBN13")).
  by case: from => [] [_ ->].
rewrite -head_free_char -last_free_char.
have [_ [_ [_ _ _ -> ->]]] :=
  strip_byP (fun c => c \in [:: equals_sign])
    (str_strip_chars [:: dquote] (stripped_field row "ISBN13")).
by [].
Qed.

Lemma stored_isbn_has_no_equals_at_ends_witness :
  [/\ aggregate_rows [:: excel_row]
      = Ok (credit_all [::] (all_attributions [:: excel_row])),
      book_of excel_row (row_title excel_row) None
        \in books_of (credit_all [::] (all_attributions [:: excel_row]))
                     (py "Suzanne Collins") &
      ~~ begins_with equals_sign
           (isbn (book_of excel_row (row_title excel_row) None))].
Proof.
have A : aggregate_rows [:: excel_row]
         = Ok (credit_all [::] (all_attributions [:: excel_row])).
  by vm_compute.
have B : book_of excel_row (row_title excel_row) None
           \in books_of (credit_all [::] (all_attributions [:: excel_row]))
                        (py "Suzanne Collins") by vm_compute.
split; [exact: A | exact: B |].
by case/andP: (stored_isbn_has_no_equals_at_ends A B).
Defined.

(** X13: every book of an author comes from a row of the input that
    names the author: it has the trimmed title of that row; it has no
    role when the author is the primary author of the row and the role
    additional_author when the author is among its additional authors;
    its rating and shelf are the fields of the row as they are, and the
    defaults 0 and unknown when the row has no such column. *)
Theorem books_come_from_rows rows d a b :
  aggregate_rows rows = Ok d -> b \in books_of d a ->
  exists2 row, row \in rows &
    [/\ title b = row_title row,
        (role b = None /\ a \in primary_names row) \/
        (role b = Some (py "additional_author") /\
         a \in additional_names row),
        rating b = row_get row "My Rating" (PyStr (py "0")) /\
        shelf b = row_get row "Exclusive Shelf" (PyStr (py "unknown")),
        lacks_column row "My Rating" -> rating b = PyStr (py "0") &
        lacks_column row "Exclusive Shelf" -> shelf b = PyStr (py "unknown")].
Proof.
move=> A /(book_provenance A) [row rin from]; exists row => //.
have [r bE] : exists r, b = book_of row (row_title row) r.
  by case: from => [] [_ ->]; [exists None | exists (Some (py "additional_author"))].
split.
- by rewrite bE.
- by case: from => [] [ain ->]; [left | right].
- by rewrite bE.
- by move=> /row_get_lacks lk; rewrite bE /= lk.
by move=> /row_get_lacks lk; rewrite bE /= lk.
Qed.

Lemma books_come_from_rows_witness :
  [/\ aggregate_rows fifteen_rows = Ok fifteen_aggregate,
      book_of (head [::] fifteen_rows) (row_title (head [::] fifteen_rows)) None
        \in books_of fifteen_aggregate (py "Jane Doe") &
      exists2 row, row \in fifteen_rows &
        lacks_column row "My Rating" ->
        rating (book_of (head [::] fifteen_rows)
                  (row_title (head [::] fifteen_rows)) None)
        = PyStr (py "0")].
Proof.
have A : aggregate_rows fifteen_rows = Ok fifteen_aggregate by vm_compute.
have B : book_of (head [::] fifteen_rows)
           (row_title (head [::] fifteen_rows)) None
           \in books_of fifteen_aggregate (py "Jane Doe") by vm_compute.
split; [exact: A | exact: B |].
have [row rin [_ _ _ lk _]] := books_come_from_rows A B.
by exists row.
Defined.

(** ** The additional authors *)

Lemma size_str_split sep s : size (str_split sep s) = (count_mem sep s).+1.
Proof.
elim: s => [|c s IH] //=.
case: eqP => _ /=; first by rewrite IH.
by case: (str_split sep s) IH => [|w ws] //= ->.
Qed.

Lemma str_split_no_sep sep s : all (fun w => sep \notin w) (str_split sep s).
Proof.
elim: s => [|c s IH] //=; case: (altP (c =P sep)) => [_|ne] //=.
case: (str_split sep s) IH => [|w ws] /=.
  by rewrite inE eq_sym (negbTE ne).
by rewrite inE negb_or eq_sym ne.
Qed.

Lemma str_split_one sep s : sep \notin s -> str_split sep s = [:: s].
Proof.
elim: s => [|c s IH] //=; rewrite inE negb_or eq_sym.
by case/andP=> /negbTE -> /IH ->.
Qed.

Lemma cleaned_infix s : exists a b, s = a ++ cleaned s ++ b.
Proof.
have [a1 [b1 [E1 _ _]]] := strip_by_infix Py_UNICODE_ISSPACE s.
have [a2 [b2 [E2 _ _]]] :=
  strip_by_infix (fun c => c \in [:: dquote]) (str_strip s).
have [a3 [b3 [E3 _ _]]] :=
  strip_by_infix Py_UNICODE_ISSPACE (str_strip_chars [:: dquote] (str_strip s)).
exists (a1 ++ a2 ++ a3), (b3 ++ b2 ++ b1).
rewrite [in LHS]E1 -/(str_strip s) [in LHS]E2.
rewrite -/(str_strip_chars [:: dquote] (str_strip s)) [in LHS]E3.
by rewrite -/(cleaned s) -!catA.
Qed.

Lemma size_attributed_all whos :
  size (flatten [seq attributed who | who <- whos]) <= size whos.
Proof.
elim: whos => [|who whos IH] //=; rewrite size_cat.
have: size (attributed who) <= 1 by case: who => [|n] //=; case: ifP.
by move=> le1; rewrite -add1n; apply: leq_add.
Qed.

(** The names of the additional-authors field: at most one more than it
    has commas, none with a comma, and for a field without a comma the one
    name it cleans to, if any. *)
Lemma additional_names_split row :
  let field := stripped_field row "Additional Authors" in
  [/\ size (additional_names row) <= (count_mem comma field).+1,
      all (fun n => comma \notin n) (additional_names row) &
      comma \notin field ->
      additional_names row = attributed (clean_author_name (PyStr field))].
Proof.
move=> field; rewrite /additional_names -/field; split.
- rewrite -size_str_split.
  have -> : [seq attributed (clean_author_name (PyStr name))
            | name <- str_split comma field]
          = [seq attributed who
            | who <- [seq clean_author_name (PyStr n)
                     | n <- str_split comma field]] by rewrite -map_comp.
  by apply: leq_trans (size_attributed_all _) _; rewrite size_map.
- apply/allP=> n /flattenP [ns /mapP [w win ->]] /attributedP [E _].
  have [cE _ _ _ _] := clean_valid E.
  have [a [b wE]] := cleaned_infix w.
  have := allP (str_split_no_sep comma field) _ win.
  by rewrite wE -cE !mem_cat !negb_or => /and3P [].
by move/str_split_one => -> /=; rewrite cats0.
Qed.


Lemma mem_keys_credit_all d atts k :
  (k \in keys (credit_all d atts)) =
  (k \in keys d) || (k \in [seq x.1 | x <- atts]).
Proof.
elim: atts d => [|[n b] atts IH] d /=; first by rewrite orbF.
rewrite IH keys_credit inE; case: ifP => [nd|_].
  by case: (altP (k =P n)) => [->|_]; rewrite ?nd ?orbT.
by rewrite mem_rcons inE orbA [(k == n) || _]orbC.
Qed.

Lemma attributed_clean v k :
  clean_author_name v = PyStr k -> attributed (PyStr k) = [:: k].
Proof.
case: v => [|s] // /clean_valid [_ k0 _ _ _].
by rewrite /= k0.
Qed.

Lemma size_attributed who : size (attributed who) <= 1.
Proof. by case: who => [|n] //=; case: ifP. Qed.

(** X14: only the Additional Authors field is split at commas.  After a
    row is processed, the name the Author field cleans to is an author as
    a whole, commas included, and so is the name each piece between the
    commas of the Additional Authors field cleans to; every author is
    one of these or was there before, and those that come from the
    pieces have no comma; the counters grow by at most two more than the
    field has commas; and with no comma in the field every counter grows
    by what the two fields, each cleaned as a whole, give the author. *)
Theorem additional_authors_split_at_commas d row d' :
  process_row d row = Ok d' ->
  let author := row_get row "Author" (PyStr [::]) in
  let field := stripped_field row "Additional Authors" in
  [/\ forall k, clean_author_name author = PyStr k -> k \in keys d',
      forall piece k,
        piece \in str_split comma field ->
        clean_author_name (PyStr piece) = PyStr k -> k \in keys d',
      forall k, k \in keys d' ->
        [\/ k \in keys d, clean_author_name author = PyStr k |
            comma \notin k /\
            exists2 piece, piece \in str_split comma field &
                           clean_author_name (PyStr piece) = PyStr k],
      sum_total_books d' <= sum_total_books d + (count_mem comma field).+2 &
      comma \notin field ->
      forall a,
        total_of d' a =
        total_of d a + count_mem a (attributed (clean_author_name author))
        + count_mem a (attributed (clean_author_name (PyStr field)))].
Proof.
rewrite process_rowE; case: ifP => // _ [<-] author field.
have [szA noC oneA] := additional_names_split row.
have inK k : (k \in keys (credit_all d (row_attributions row)))
             = (k \in keys d) || (k \in row_names row).
  by rewrite mem_keys_credit_all names_row_attributions.
split.
- move=> k E; rewrite inK /row_names mem_cat /primary_names -/author E.
  by rewrite (attributed_clean E) inE eqxx orbT.
- move=> piece k pin E; rewrite inK /row_names mem_cat /additional_names -/field.
  apply/orP; right; apply/orP; right.
  apply/flattenP; exists (attributed (clean_author_name (PyStr piece))).
    by apply/mapP; exists piece.
  by rewrite E (attributed_clean E) inE.
- move=> k; rewrite inK /row_names mem_cat => /or3P [kd|kp|ka].
  + exact: Or31.
  + by apply: Or32; have [-> _] := attributedP kp.
  apply: Or33; split; first exact: (allP noC).
  move: ka; rewrite /additional_names -/field.
  case/flattenP=> ns /mapP [piece pin ->] /attributedP [E _].
  by exists piece.
- rewrite sum_credit_all leq_add2l.
  have -> : size (row_attributions row) = size (row_names row).
    by rewrite -names_row_attributions size_map.
  rewrite /row_names size_cat -add1n.
  by apply: leq_add szA; apply: size_attributed.
move=> /oneA aE a.
by rewrite total_of_credit_all names_row_attributions /row_names count_cat addnA aE.
Qed.

Lemma additional_authors_split_at_commas_witness :
  [/\ process_row [::] comma_row = Ok comma_aggregate,
      clean_author_name (row_get comma_row "Author" (PyStr [::]))
      = PyStr (py "Doe, Jane") &
      py "Doe, Jane" \in keys comma_aggregate].
Proof.
have P : process_row [::] comma_row = Ok comma_aggregate by vm_compute.
have E : clean_author_name (row_get comma_row "Author" (PyStr [::]))
         = PyStr (py "Doe, Jane") by vm_compute.
split; [exact: P | exact: E |].
have [whole _ _ _ _] := additional_authors_split_at_commas P.
exact: whole E.
Defined.

(** ** The forms of the ISBN13 field *)

Lemma lstrip_by_cat_all (p : pred codepoint) a v :
  all p a -> lstrip_by p (a ++ v) = lstrip_by p v.
Proof. by elim: a => [|c a IH] //= /andP [-> /IH]. Qed.

Lemma strip_by_cat (p : pred codepoint) a u b :
  all p a -> all p b -> head_free p u -> last_free p u ->
  strip_by p (a ++ u ++ b) = u.
Proof.
move=> pa pb hf lf; rewrite /strip_by lstrip_by_cat_all //.
case: u hf lf => [|c u] hf lf; first by rewrite /= lstrip_by_all.
rewrite [lstrip_by p _]lstrip_by_id // /rstrip_by rev_cat.
by rewrite lstrip_by_cat_all ?all_rev // lstrip_by_id // revK.
Qed.

Lemma head_free_sub (p q : pred codepoint) s :
  (forall c, q c -> p c) -> head_free p s -> head_free q s.
Proof. by move=> qp; case: s => [|c s] //=; apply: contra; apply: qp. Qed.

Lemma last_free_cat (p : pred codepoint) a x :
  x != [::] -> last_free p (a ++ x) = last_free p x.
Proof.
rewrite /last_free rev_cat -size_eq0 -size_rev size_eq0.
by case: (rev x).
Qed.

(** X15: what is stored for the forms in which an ISBN is written, the
    value itself having no white space, quote or equals sign at its ends:
    the value for the plain form, for the quoted form and for the form
    with an equals sign in front; for the form of the export, an equals
    sign in front of the quoted value, the value with the opening quote
    still in front of it. *)
Theorem isbn_of_export_forms row t role x f :
  bare x -> row_get row "ISBN13" (PyStr [::]) = PyStr f ->
  exists2 b, book_dict row t role = Ok b &
    [/\ f = x -> isbn b = x,
        f = [:: dquote] ++ x ++ [:: dquote] -> isbn b = x,
        f = [:: equals_sign] ++ x -> isbn b = x &
        f = [:: equals_sign; dquote] ++ x ++ [:: dquote] ->
        isbn b = dquote :: x].
Proof.
case/and3P=> x0 hj lj E; rewrite /book_dict E /=.
eexists; first by reflexivity.
have hw : head_free Py_UNICODE_ISSPACE x.
  by apply: head_free_sub hj => c; rewrite /isbn_junk => ->.
have lw : last_free Py_UNICODE_ISSPACE x.
  by apply: head_free_sub lj => c; rewrite /isbn_junk => ->.
have hq : head_free (fun c => c \in [:: dquote]) x.
  by apply: head_free_sub hj => c; rewrite /isbn_junk inE => ->; rewrite orbT.
have lq : last_free (fun c => c \in [:: dquote]) x.
  by apply: head_free_sub lj => c; rewrite /isbn_junk inE => ->; rewrite orbT.
have he : head_free (fun c => c \in [:: equals_sign]) x.
  by apply: head_free_sub hj => c; rewrite /isbn_junk inE => ->; rewrite !orbT.
have le : last_free (fun c => c \in [:: equals_sign]) x.
  by apply: head_free_sub lj => c; rewrite /isbn_junk inE => ->; rewrite !orbT.
have plain : str_strip_chars [:: equals_sign]
               (str_strip_chars [:: dquote] (str_strip x)) = x.
  by rewrite [str_strip x]strip_by_id // [str_strip_chars _ x]strip_by_id //
             [str_strip_chars _ x]strip_by_id.
split; rewrite [isbn _]/= => ->.
- exact: plain.
- have -> : str_strip ([:: dquote] ++ x ++ [:: dquote])
            = [:: dquote] ++ x ++ [:: dquote].
    by apply: strip_by_id => //; rewrite catA last_free_cat.
  have -> : str_strip_chars [:: dquote] ([:: dquote] ++ x ++ [:: dquote]) = x.
    exact: strip_by_cat.
  exact: strip_by_id.
- have -> : str_strip ([:: equals_sign] ++ x) = [:: equals_sign] ++ x.
    by apply: strip_by_id => //; rewrite last_free_cat.
  have -> : str_strip_chars [:: dquote] ([:: equals_sign] ++ x)
            = [:: equals_sign] ++ x.
    by apply: strip_by_id => //; rewrite last_free_cat.
  have := @strip_by_cat (fun c => c \in [:: equals_sign])
            [:: equals_sign] x [::] isT isT he le.
  by rewrite cats0.
have -> : str_strip ([:: equals_sign; dquote] ++ x ++ [:: dquote])
          = [:: equals_sign; dquote] ++ x ++ [:: dquote].
  by apply: strip_by_id => //; rewrite catA last_free_cat.
have -> : str_strip_chars [:: dquote]
            ([:: equals_sign; dquote] ++ x ++ [:: dquote])
          = [:: equals_sign; dquote] ++ x.
  have := @strip_by_cat (fun c => c \in [:: dquote])
            [::] ([:: equals_sign; dquote] ++ x) [:: dquote] isT isT isT.
  by rewrite last_free_cat // => /(_ lq).
have := @strip_by_cat (fun c => c \in [:: equals_sign])
          [:: equals_sign] ([:: dquote] ++ x) [::] isT isT isT.
by rewrite last_free_cat // cats0 => /(_ le).
Qed.

Lemma isbn_of_export_forms_witness :
  [/\ bare (py "9780439023481"),
      row_get excel_row "ISBN13" (PyStr [::]) = PyStr excel_isbn &
      exists2 b, book_dict excel_row (py "The Hunger Games") None = Ok b &
                 isbn b = dquote :: py "9780439023481"].
Proof.
have B : bare (py "9780439023481") by vm_compute.
have E : row_get excel_row "ISBN13" (PyStr [::]) = PyStr excel_isbn.
  by vm_compute.
split; [exact: B | exact: E |].
have [b bE [_ _ _ form]] :=
  isbn_of_export_forms (py "The Hunger Games") None B E.
by exists b; [exact: bE | exact: form (erefl _)].
Defined.

(** * Further properties of the views *)

Lemma index_le_mem2 (T : eqType) (s : seq T) x y :
  x \in s -> y \in s -> index x s <= index y s -> mem2 s x y.
Proof.
move=> xs ys le; rewrite /mem2.
have -> : y = nth y (drop (index x s) s) (index y s - index x s).
  by rewrite nth_drop subnKC // nth_index.
by rewrite mem_nth // size_drop ltn_sub2r // index_mem.
Qed.

Lemma mem2_index_le (T : eqType) (s : seq T) x y :
  uniq s -> mem2 s x y -> index x s <= index y s.
Proof.
move=> us m; rewrite leqNgt; apply/negP => lt.
have ys := mem2r m.
have yt : y \in take (index x s) s.
  have <- : nth y (take (index x s) s) (index y s) = y.
    by rewrite nth_take // nth_index.
  by rewrite mem_nth // size_takel // index_size.
move: us; rewrite -(cat_take_drop (index x s) s) cat_uniq => /and3P [_ /hasPn no _].
by move: (no _ m); rewrite /= yt.
Qed.

(** Among the sorted items, one that was inserted before another and has
    at least as many books comes first. *)
Lemma rank_ties d A B :
  uniq (keys d) -> appears_before A B (keys d) ->
  total_of d B <= total_of d A ->
  appears_before A B [seq x.1 | x <- sorted_items d].
Proof.
move=> ud /and3P [Ak Bk lt] le.
have [eA gA Ad] := dict_get_keys Ak.
have [eB gB Bd] := dict_get_keys Bk.
move: le; rewrite /total_of /entry_of gA gB /= => le.
have inj := uniq_map_inj ud.
have iA : index A (keys d) = index (A, eA) d.
  exact: (@index_map_in _ _ fst d (A, eA) inj Ad).
have iB : index B (keys d) = index (B, eB) d.
  exact: (@index_map_in _ _ fst d (B, eB) inj Bd).
have m : mem2 d (A, eA) (B, eB).
  by apply: index_le_mem2 => //; rewrite -iA -iB ltnW.
have ms := @mem2_sort _ _ by_total_books_desc_total by_total_books_desc_trans
             d (A, eA) (B, eB) le m.
set s := sorted_items d in ms *.
have us : uniq [seq x.1 | x <- s] by rewrite (perm_uniq (keys_sorted_items d)).
have As : (A, eA) \in s by rewrite mem_sort.
have Bs : (B, eB) \in s by rewrite mem_sort.
have injs := uniq_map_inj us.
have jA : index A [seq x.1 | x <- s] = index (A, eA) s.
  exact: (@index_map_in _ _ fst s (A, eA) injs As).
have jB : index B [seq x.1 | x <- s] = index (B, eB) s.
  exact: (@index_map_in _ _ fst s (B, eB) injs Bs).
apply/and3P; split; [exact: (map_f fst As) | exact: (map_f fst Bs) |].
rewrite jA jB ltn_neqAle (mem2_index_le (map_uniq us) ms) andbT.
apply/negP => /eqP ii.
have xy : (A, eA) = (B, eB) by rewrite -(nth_index (A, eA) As) ii nth_index.
by move: lt; rewrite iA iB xy ltnn.
Qed.

(** X16: authors with the same number of books are listed in the order in
    which the aggregate holds them, in all three views; more generally an
    author that comes before another in the aggregate and has at least as
    many books comes before it in the views. *)
Theorem ties_keep_insertion_order d A B :
  uniq (keys d) -> appears_before A B (keys d) ->
  total_of d B <= total_of d A ->
  [/\ appears_before A B (detailed_names (create_cache_warming_format d)),
      appears_before A B (create_simple_author_list d) &
      appears_before A B [seq csv_author r | r <- csv_author_rows d]].
Proof.
move=> ud before le; have r := rank_ties ud before le.
split=> //.
- by rewrite /detailed_names /= -map_comp.
by rewrite /csv_author_rows -map_comp.
Qed.

Lemma ties_keep_insertion_order_witness :
  [/\ uniq (keys (credit_all [::] (all_attributions (take 1 sample_rows)))),
      appears_before (py "Jane Doe") (py "John Roe")
        (keys (credit_all [::] (all_attributions (take 1 sample_rows)))),
      total_of (credit_all [::] (all_attributions (take 1 sample_rows)))
        (py "John Roe")
      <= total_of (credit_all [::] (all_attributions (take 1 sample_rows)))
           (py "Jane Doe") &
      appears_before (py "Jane Doe") (py "John Roe")
        (create_simple_author_list
           (credit_all [::] (all_attributions (take 1 sample_rows))))].
Proof.
have U : uniq (keys (credit_all [::] (all_attributions (take 1 sample_rows)))).
  by vm_compute.
have B : appears_before (py "Jane Doe") (py "John Roe")
           (keys (credit_all [::] (all_attributions (take 1 sample_rows)))).
  by vm_compute.
have L : total_of (credit_all [::] (all_attributions (take 1 sample_rows)))
           (py "John Roe")
         <= total_of (credit_all [::] (all_attributions (take 1 sample_rows)))
              (py "Jane Doe") by vm_compute.
split; [exact: U | exact: B | exact: L |].
by case: (ties_keep_insertion_order U B L).
Defined.

(** X17: what [main] writes is consistent: every author of the aggregate
    is in the list of names exactly once; the list, the authors of the
    detailed view and the rows of the table under its header are as many
    as the metadata say there are authors; and the number of books of the
    metadata is the sum of the counts of the detailed view and of the
    table. *)
Theorem main_outputs_agree rows out :
  main rows = Ok out ->
  let md := Detailed.metadata (detailed_json out) in
  [/\ exists2 d, extract_authors_from_goodreads rows = Ok d &
                 perm_eq (simple_json out) (keys d),
      uniq (simple_json out),
      [/\ size (simple_json out) = Detailed.total_authors md,
          size (Detailed.authors (detailed_json out))
          = Detailed.total_authors md &
          size (cache_csv out) = (Detailed.total_authors md).+1],
      head [::] (cache_csv out) = csv_header &
      Detailed.total_books md
      = sumn [seq Detailed.book_count a
             | a <- Detailed.authors (detailed_json out)] /\
      Detailed.total_books md
      = sumn [seq csv_book_count r | r <- behead (cache_csv out)]].
Proof.
case/main_outputs=> d E [-> -> ->] /=.
have ud : uniq (keys d).
  exact: (@inv_aggregate_rows (fun d => uniq (keys d))
            uniq_keys_credit _ _ _ (extract_aggregate E)).
split.
- by exists d => //; apply: keys_sorted_items.
- by rewrite (perm_uniq (keys_sorted_items d)).
- by rewrite /create_simple_author_list /csv_author_rows !size_map.
- by [].
by rewrite /csv_author_rows -!map_comp.
Qed.

Lemma main_outputs_agree_witness :
  main sample_rows
  = Ok {| detailed_json := create_cache_warming_format sample_aggregate;
          simple_json := create_simple_author_list sample_aggregate;
          cache_csv := csv_header :: csv_author_rows sample_aggregate |} /\
  uniq (create_simple_author_list sample_aggregate).
Proof.
have M : main sample_rows
  = Ok {| detailed_json := create_cache_warming_format sample_aggregate;
          simple_json := create_simple_author_list sample_aggregate;
          cache_csv := csv_header :: csv_author_rows sample_aggregate |}.
  by vm_compute.
split; first exact: M.
by case: (main_outputs_agree M).
Defined.
